(** * LiveMusicHelper: the streaming playback session manager

    A shallow embedding of the class [LiveMusicHelper] (the session
    manager of the prompt-driven live music player) and the properties of
    its scheduler, state machine, prompt channel and connection handling.
    Two neighbours of the helper follow it: the endpoint that issues the
    tokens its client factory uses, and the parts of the prompt grid
    [PromptDjMidi] that build the prompt map and drive the piano banner.

    Conventions of the embedding.
    - Times ([audioContext.currentTime], [nextStartTime], buffer
      durations, gain automation times) are JavaScript numbers in
      seconds.  A finite JavaScript number is a rational; the test
      [x === 0] is [Qeq_bool x 0] and [x < y] is [Qltb x y], both exact.
      The engine rounds every sum and product to the nearest double
      ([binary64], [fadd], [fmul], [fdiv]).  The scheduler is given in
      two readings: [processAudioChunks_resume] adds without rounding,
      which is what the code does whenever the sum is itself a double,
      and serves for the properties that do not depend on the last bit
      of a time; [processAudioChunks_resume64] rounds every sum as the
      engine does, and serves where the exact value of [nextStartTime]
      matters.  The geometry of the piano banner is computed in doubles
      throughout.  The times of the gain ramps and the weights set by
      the dial gesture are left unrounded.
    - The prompt map is an object shared between the helper and the
      prompt grid.  The helper's methods are written over the contents
      of the map ([prompts], a list of keys and prompts); the part
      [Shared] puts the map and its [Prompt] objects in a store of
      objects and runs the same methods on the contents the map has when
      they run.
    - A method is a computation in the monad [M]: it reads and updates the
      fields of the helper and appends to a log of the effects it has on
      its collaborators (events dispatched, commands sent on the session,
      audio nodes driven, timers armed).
    - An [async] method is cut at its [await]s: one definition per
      run-to-completion segment.  Everything between two [await]s runs
      atomically on the single JavaScript thread, and other callbacks may
      run between two segments.
    - The clock of the audio context is the field [currentTime]; it
      stands still within a segment and moves between segments.
    - [log] only writes to the console and is left out. *)

From Stdlib Require Import QArith Qminmax Qround Qpower Lqa.
From stdpp Require Import gmap strings list.

Local Open Scope string_scope.
Local Open Scope list_scope.

(** ** Data model *)

(** Modelled from the spec: the type [PlaybackState] of [types.ts], a file
    that is not among the sources; its four states are
    [stopped | loading | playing | paused], the initial one [stopped]. *)
Inductive PlaybackState : Type :=
  | stopped
  | playing
  | loading
  | paused.

#[global] Instance PlaybackState_eq_dec : EqDecision PlaybackState :=
  ltac:(solve_decision).

(** Modelled from the spec: the type [Prompt] of [types.ts], with a unique
    [promptId], a [text], a [weight] between 0 and 2, the controller
    binding [cc] and a [color] for display. *)
Record Prompt : Type := mkPrompt {
  promptId : string;
  text : string;
  weight : Q;
  cc : Z;
  color : string;
}.

(** References to objects that live outside the helper. *)
Definition SessionRef := nat.   (* a [LiveMusicSession] *)
Definition PromiseRef := nat.   (* a [Promise<LiveMusicSession>] *)
Definition NodeRef := nat.      (* a [GainNode] or another [AudioNode] *)

(** Commands of the remote session that the helper calls. *)
Inductive SessionCmd : Type :=
  | CmdPlay
  | CmdPause
  | CmdStop
  | CmdSetWeightedPrompts (weightedPrompts : list Prompt).

(** The custom events the helper dispatches on itself. *)
Inductive HelperEvent : Type :=
  | PlaybackStateChanged (detail : PlaybackState)
  | ErrorEvent (detail : string)
  | FilteredPromptEvent (txt : string) (filteredReason : string).

(** Where [outputNode.connect] may lead. *)
Inductive Destination : Type :=
  | ContextDestination
  | ExtraDestination (n : NodeRef).

(** What a segment of code does to the world around the helper. *)
Inductive Effect : Type :=
  | Dispatch (e : HelperEvent)                       (* this.dispatchEvent *)
  | Send (s : SessionRef) (c : SessionCmd)           (* this.session.<cmd>() *)
  | AiFactory                                        (* this.aiFactory() *)
  | LiveConnect (p : PromiseRef)                     (* ai.live.music.connect *)
  | GainSetValueAtTime (n : NodeRef) (v t : Q)
  | GainLinearRampToValueAtTime (n : NodeRef) (v t : Q)
  | CreateGain (n : NodeRef)                         (* audioContext.createGain *)
  | SourceConnect (n : NodeRef)                      (* source.connect(outputNode) *)
  | SourceStart (n : NodeRef) (duration when : Q)    (* source.start(when) *)
  | NodeConnect (n : NodeRef) (d : Destination)      (* outputNode.connect *)
  | ContextResume                                    (* audioContext.resume *)
  | SetTimeout (ms : Q).                             (* setTimeout(cb, ms) *)

(** The fields of the helper.  [currentTime] is the clock of
    [audioContext]; [timers] holds the pending [setTimeout] callbacks (all
    of them are the closure of [processAudioChunks], kept by their delay);
    [fresh] numbers the promises and nodes created so far. *)
Record Helper : Type := mkHelper {
  session : option SessionRef;
  sessionPromise : option PromiseRef;
  connectionError : bool;
  filteredPrompts : gset string;
  nextStartTime : Q;
  bufferTime : Q;
  currentTime : Q;
  extraDestination : option NodeRef;
  outputNode : NodeRef;
  playbackState : PlaybackState;
  prompts : list (string * Prompt);
  sessionId : option nat;
  timers : list Q;
  fresh : nat;
}.

(** The field initialisers and the constructor. *)
Definition new_LiveMusicHelper : Helper :=
  {| session := None;
     sessionPromise := None;
     connectionError := true;
     filteredPrompts := ∅;
     nextStartTime := 0;
     bufferTime := 2;
     currentTime := 0;
     extraDestination := None;
     outputNode := 0%nat;
     playbackState := stopped;
     prompts := [];
     sessionId := None;
     timers := [];
     fresh := 1%nat |}.

(** Field assignments. *)
Definition set_session (v : option SessionRef) (h : Helper) : Helper :=
  mkHelper v (sessionPromise h) (connectionError h) (filteredPrompts h)
    (nextStartTime h) (bufferTime h) (currentTime h) (extraDestination h)
    (outputNode h) (playbackState h) (prompts h) (sessionId h) (timers h)
    (fresh h).

Definition set_sessionPromise (v : option PromiseRef) (h : Helper) : Helper :=
  mkHelper (session h) v (connectionError h) (filteredPrompts h)
    (nextStartTime h) (bufferTime h) (currentTime h) (extraDestination h)
    (outputNode h) (playbackState h) (prompts h) (sessionId h) (timers h)
    (fresh h).

Definition set_connectionError (v : bool) (h : Helper) : Helper :=
  mkHelper (session h) (sessionPromise h) v (filteredPrompts h)
    (nextStartTime h) (bufferTime h) (currentTime h) (extraDestination h)
    (outputNode h) (playbackState h) (prompts h) (sessionId h) (timers h)
    (fresh h).

Definition set_filteredPrompts (v : gset string) (h : Helper) : Helper :=
  mkHelper (session h) (sessionPromise h) (connectionError h) v
    (nextStartTime h) (bufferTime h) (currentTime h) (extraDestination h)
    (outputNode h) (playbackState h) (prompts h) (sessionId h) (timers h)
    (fresh h).

Definition set_nextStartTime (v : Q) (h : Helper) : Helper :=
  mkHelper (session h) (sessionPromise h) (connectionError h)
    (filteredPrompts h) v (bufferTime h) (currentTime h) (extraDestination h)
    (outputNode h) (playbackState h) (prompts h) (sessionId h) (timers h)
    (fresh h).

Definition set_currentTime (v : Q) (h : Helper) : Helper :=
  mkHelper (session h) (sessionPromise h) (connectionError h)
    (filteredPrompts h) (nextStartTime h) (bufferTime h) v
    (extraDestination h) (outputNode h) (playbackState h) (prompts h)
    (sessionId h) (timers h) (fresh h).

Definition set_outputNode (v : NodeRef) (h : Helper) : Helper :=
  mkHelper (session h) (sessionPromise h) (connectionError h)
    (filteredPrompts h) (nextStartTime h) (bufferTime h) (currentTime h)
    (extraDestination h) v (playbackState h) (prompts h) (sessionId h)
    (timers h) (fresh h).

Definition set_playbackState (v : PlaybackState) (h : Helper) : Helper :=
  mkHelper (session h) (sessionPromise h) (connectionError h)
    (filteredPrompts h) (nextStartTime h) (bufferTime h) (currentTime h)
    (extraDestination h) (outputNode h) v (prompts h) (sessionId h)
    (timers h) (fresh h).

Definition set_prompts (v : list (string * Prompt)) (h : Helper) : Helper :=
  mkHelper (session h) (sessionPromise h) (connectionError h)
    (filteredPrompts h) (nextStartTime h) (bufferTime h) (currentTime h)
    (extraDestination h) (outputNode h) (playbackState h) v (sessionId h)
    (timers h) (fresh h).

Definition set_sessionId (v : option nat) (h : Helper) : Helper :=
  mkHelper (session h) (sessionPromise h) (connectionError h)
    (filteredPrompts h) (nextStartTime h) (bufferTime h) (currentTime h)
    (extraDestination h) (outputNode h) (playbackState h) (prompts h) v
    (timers h) (fresh h).

Definition set_timers (v : list Q) (h : Helper) : Helper :=
  mkHelper (session h) (sessionPromise h) (connectionError h)
    (filteredPrompts h) (nextStartTime h) (bufferTime h) (currentTime h)
    (extraDestination h) (outputNode h) (playbackState h) (prompts h)
    (sessionId h) v (fresh h).

Definition set_fresh (v : nat) (h : Helper) : Helper :=
  mkHelper (session h) (sessionPromise h) (connectionError h)
    (filteredPrompts h) (nextStartTime h) (bufferTime h) (currentTime h)
    (extraDestination h) (outputNode h) (playbackState h) (prompts h)
    (sessionId h) (timers h) v.

(** ** The monad of methods: state of the helper and a log of effects *)

Definition M (A : Type) : Type := Helper -> A * Helper * list Effect.

Definition ret {A : Type} (a : A) : M A := fun h => (a, h, []).

Definition bind {A B : Type} (m : M A) (k : A -> M B) : M B :=
  fun h =>
    let '(a, h1, e1) := m h in
    let '(b, h2, e2) := k a h1 in
    (b, h2, e1 ++ e2).

Definition this : M Helper := fun h => (h, h, []).
Definition assign (f : Helper -> Helper) : M unit := fun h => (tt, f h, []).
Definition emit (e : Effect) : M unit := fun h => (tt, h, [e]).

Declare Scope method_scope.
Delimit Scope method_scope with method.
Notation "x <- m ;; k" := (bind m (fun x => k))
  (at level 100, m at next level, right associativity) : method_scope.
Notation "m ;; k" := (bind m (fun _ => k))
  (at level 100, right associativity) : method_scope.
Local Open Scope method_scope.

(** The helper after a computation, and what the computation did. *)
Definition after {A : Type} (m : M A) (h : Helper) : Helper := snd (fst (m h)).
Definition effects {A : Type} (m : M A) (h : Helper) : list Effect := snd (m h).
Definition result {A : Type} (m : M A) (h : Helper) : A := fst (fst (m h)).

(** A new promise or node. *)
Definition alloc : M nat :=
  h <- this ;;
  assign (set_fresh (S (fresh h))) ;;
  ret (fresh h).

Definition Qltb (x y : Q) : bool := negb (Qle_bool y x).

(** ** JavaScript numbers

    A JavaScript number is an IEEE 754 binary64 value, and [+], [-], [*]
    and [/] return the double nearest to the exact result, a tie going to
    the even significand.  The finite doubles are the rationals
    [m * 2 ^ e] with [m] below [2 ^ 53] in magnitude.  The range of the
    exponent is not bounded here: overflow to an infinity and the loss of
    precision of the subnormal numbers lie far from the seconds and
    pixels this program computes. *)

(** The exponent of the leading bit of a positive rational:
    [2 ^ ilog2 q <= q < 2 ^ (ilog2 q + 1)]. *)
Definition ilog2 (q : Q) : Z :=
  let k := (Z.log2 (Qnum q) - Z.log2 (Zpos (Qden q)))%Z in
  if Qle_bool (2 ^ k) q then k else (k - 1)%Z.

(** The nearest integer, a tie going to the even one. *)
Definition rne (x : Q) : Z :=
  let f := Qfloor x in
  match (x - inject_Z f ?= 1 # 2)%Q with
  | Lt => f
  | Gt => (f + 1)%Z
  | Eq => if Z.even f then f else (f + 1)%Z
  end.

(** A positive rational rounded to a significand of 53 bits. *)
Definition round53 (q : Q) : Q :=
  let e := (ilog2 q - 52)%Z in
  (inject_Z (rne (q / 2 ^ e)) * 2 ^ e)%Q.

(** The double nearest to a rational, as a fraction in lowest terms. *)
Definition binary64 (q : Q) : Q :=
  Qred match (q ?= 0)%Q with
       | Eq => 0%Q
       | Gt => round53 q
       | Lt => (- round53 (- q))%Q
       end.

(** The arithmetic of JavaScript on two numbers. *)
Definition fadd (x y : Q) : Q := binary64 (x + y).
Definition fsub (x y : Q) : Q := binary64 (x - y).
Definition fmul (x y : Q) : Q := binary64 (x * y).
Definition fdiv (x y : Q) : Q := binary64 (x / y).

(** The rationals that are doubles. *)
Definition representable (q : Q) : Prop := (binary64 q == q)%Q.

(** The range of the normal doubles, in which [binary64] is the rounding
    of the engine. *)
Definition in_range (q : Q) : Prop :=
  (2 ^ (-1022) <= q)%Q /\ (q <= 2 ^ 1023)%Q.

(** ** Playback state machine and scheduler *)

(** [setPlaybackState(state)] *)
Definition setPlaybackState (state : PlaybackState) : M unit :=
  assign (set_playbackState state) ;;
  emit (Dispatch (PlaybackStateChanged state)).

(** An [AudioChunk] carries opaque encoded data. *)
Record AudioChunk : Type := mkAudioChunk { data : string }.

(** How the first segment of [processAudioChunks] ends. *)
Inductive ChunkStatus : Type :=
  | Dropped                       (* the early [return] *)
  | Threw                         (* [audioChunks[0]] is undefined *)
  | Decoding (c : AudioChunk).    (* suspended at [await decodeAudioData] *)

(** [processAudioChunks(audioChunks)] up to its [await]. *)
Definition processAudioChunks_begin (audioChunks : list AudioChunk)
  : M ChunkStatus :=
  h <- this ;;
  if bool_decide (playbackState h = paused)
     || bool_decide (playbackState h = stopped)
  then ret Dropped
  else match audioChunks with
       | [] => ret Threw
       | c :: _ => ret (Decoding c)
       end.

(** [processAudioChunks] from the point where [decodeAudioData] has
    produced [audioBuffer]; only [audioBuffer.duration] matters.  The
    result tells whether [source.start] was reached.  The sums are taken
    without rounding here; [processAudioChunks_resume64] below rounds
    them. *)
Definition processAudioChunks_resume (duration : Q) : M bool :=
  h <- this ;;
  emit (SourceConnect (outputNode h)) ;;
  (if Qeq_bool (nextStartTime h) 0
   then assign (set_nextStartTime (currentTime h + bufferTime h)%Q) ;;
        assign (set_timers (timers h ++ [(bufferTime h * 1000)%Q])) ;;
        emit (SetTimeout (bufferTime h * 1000)%Q)
   else ret tt) ;;
  h1 <- this ;;
  if Qltb (nextStartTime h1) (currentTime h1)
  then setPlaybackState loading ;;
       assign (set_nextStartTime 0) ;;
       ret false
  else emit (SourceStart (outputNode h1) duration (nextStartTime h1)) ;;
       assign (set_nextStartTime (nextStartTime h1 + duration)%Q) ;;
       ret true.

(** The same code with every sum and product rounded to a double, as
    the engine computes them: [currentTime + bufferTime],
    [bufferTime * 1000] and [nextStartTime += audioBuffer.duration]. *)
Definition processAudioChunks_resume64 (duration : Q) : M bool :=
  h <- this ;;
  emit (SourceConnect (outputNode h)) ;;
  (if Qeq_bool (nextStartTime h) 0
   then assign (set_nextStartTime (fadd (currentTime h) (bufferTime h))) ;;
        assign (set_timers (timers h ++ [fmul (bufferTime h) 1000])) ;;
        emit (SetTimeout (fmul (bufferTime h) 1000))
   else ret tt) ;;
  h1 <- this ;;
  if Qltb (nextStartTime h1) (currentTime h1)
  then setPlaybackState loading ;;
       assign (set_nextStartTime 0) ;;
       ret false
  else emit (SourceStart (outputNode h1) duration (nextStartTime h1)) ;;
       assign (set_nextStartTime (fadd (nextStartTime h1) duration)) ;;
       ret true.

(** The callback armed by [setTimeout] in [processAudioChunks]: the
    oldest pending timer fires. *)
Definition timer_fired : M unit :=
  h <- this ;;
  match timers h with
  | [] => ret tt
  | _ :: rest =>
      assign (set_timers rest) ;;
      setPlaybackState playing
  end.

(** ** Prompt channel *)

(** The predicate of the [filter] in the getter [activePrompts]. *)
Definition isActive (filtered : gset string) (p : Prompt) : bool :=
  negb (bool_decide (text p ∈ filtered)) && negb (Qeq_bool (weight p) 0).

(** [get activePrompts()]: the values of the map, in insertion order. *)
Definition activePrompts (h : Helper) : list Prompt :=
  List.filter (isActive (filteredPrompts h)) (map snd (prompts h)).

(** [pause()] *)
Definition pause : M unit :=
  h <- this ;;
  match session h with
  | Some s => emit (Send s CmdPause)
  | None => ret tt
  end ;;
  setPlaybackState paused ;;
  emit (GainSetValueAtTime (outputNode h) 1 (currentTime h)) ;;
  emit (GainLinearRampToValueAtTime (outputNode h) 0
          (currentTime h + (1 # 10))%Q) ;;
  assign (set_nextStartTime 0) ;;
  n <- alloc ;;
  emit (CreateGain n) ;;
  assign (set_outputNode n).

(** [stop()] *)
Definition stop : M unit :=
  h <- this ;;
  match session h with
  | Some s => emit (Send s CmdStop)
  | None => ret tt
  end ;;
  setPlaybackState stopped ;;
  emit (GainSetValueAtTime (outputNode h) 0 (currentTime h)) ;;
  emit (GainLinearRampToValueAtTime (outputNode h) 1
          (currentTime h + (1 # 10))%Q) ;;
  assign (set_nextStartTime 0) ;;
  assign (set_session None) ;;
  assign (set_sessionPromise None).

(** [handleDisconnect()] *)
Definition handleDisconnect : M unit :=
  assign (set_connectionError true) ;;
  setPlaybackState stopped ;;
  h <- this ;;
  emit (GainSetValueAtTime (outputNode h) 0 (currentTime h)) ;;
  emit (GainLinearRampToValueAtTime (outputNode h) 1
          (currentTime h + (1 # 10))%Q) ;;
  assign (set_nextStartTime 0) ;;
  assign (set_session None) ;;
  assign (set_sessionPromise None).

(** How the function given to [throttle] for [setWeightedPrompts] leaves
    its first segment. *)
Inductive PromptsStatus : Type :=
  | Throttled                      (* the rate limiter did not run it *)
  | NoActivePrompt                 (* error dispatched, paused *)
  | NoSession                      (* [if (!this.session) return] *)
  | Sending (s : SessionRef).      (* suspended at [await session.setWeightedPrompts] *)

(** The function given to [throttle], up to its [await]: one effective
    invocation of [setWeightedPrompts]. *)
Definition setWeightedPrompts_begin (ps : list (string * Prompt))
  : M PromptsStatus :=
  assign (set_prompts ps) ;;
  h <- this ;;
  if (length (activePrompts h) =? 0)%nat
  then emit (Dispatch (ErrorEvent
               "There needs to be one active prompt to play.")) ;;
       pause ;;
       ret NoActivePrompt
  else match session h with
       | None => ret NoSession
       | Some s =>
           emit (Send s (CmdSetWeightedPrompts (activePrompts h))) ;;
           ret (Sending s)
       end.

(** Its [catch] block, entered when the send fails with [e.message]. *)
Definition setWeightedPrompts_catch (message : string) : M unit :=
  emit (Dispatch (ErrorEvent message)) ;;
  pause.

(** One effective invocation run to its end: [failure] is the message of
    the error the transport raises for the send, if it raises one. *)
Definition setWeightedPrompts_run (ps : list (string * Prompt))
  (failure : option string) : M PromptsStatus :=
  r <- setWeightedPrompts_begin ps ;;
  match r, failure with
  | Sending _, Some message => setWeightedPrompts_catch message ;; ret r
  | _, _ => ret r
  end.

(** [setWeightedPrompts = throttle(..., 200)].  The module [throttle] is
    not among the sources at hand; its decision for a call, taken from its
    own clock and last call time, is the argument [through]. *)
Definition setWeightedPrompts (through : bool) (ps : list (string * Prompt))
  : M PromptsStatus :=
  if through then setWeightedPrompts_begin ps else ret Throttled.

(** ** Remote session connection *)

(** [connect()] up to [await this.aiFactory()]; the result is the promise
    of the [async] function. *)
Definition connect_begin : M PromiseRef :=
  emit AiFactory ;;
  alloc.

(** [connect()] once the factory has produced its client: [sid] is the
    session identifier built from the clock and the random source. *)
Definition connect_resume (sid : nat) : M PromiseRef :=
  assign (set_sessionId (Some sid)) ;;
  p <- alloc ;;
  emit (LiveConnect p) ;;
  assign (set_sessionPromise (Some p)) ;;
  ret p.

(** [getSession()] *)
Definition getSession : M PromiseRef :=
  h <- this ;;
  match sessionPromise h with
  | Some p => ret p
  | None =>
      p <- connect_begin ;;
      assign (set_sessionPromise (Some p)) ;;
      ret p
  end.

(** The messages of the server, as far as [onmessage] reads them. *)
Record LiveMusicServerMessage : Type := mkMessage {
  setupComplete : bool;
  filteredPrompt : option (string * string);   (* text, filteredReason *)
  audioChunks : option (list AudioChunk);      (* serverContent?.audioChunks *)
}.

(** The callback [onmessage], up to the [await] inside
    [processAudioChunks]. *)
Definition onmessage (e : LiveMusicServerMessage) : M (option ChunkStatus) :=
  (if setupComplete e then assign (set_connectionError false) else ret tt) ;;
  match filteredPrompt e with
  | Some (t, reason) =>
      h <- this ;;
      assign (set_filteredPrompts (filteredPrompts h ∪ {[ t ]})) ;;
      emit (Dispatch (FilteredPromptEvent t reason))
  | None => ret tt
  end ;;
  match audioChunks e with
  | Some cs => r <- processAudioChunks_begin cs ;; ret (Some r)
  | None => ret None
  end.

(** The callbacks [onerror] and [onclose]. *)
Definition onerror : M unit :=
  handleDisconnect ;;
  emit (Dispatch (ErrorEvent "Connection error, please restart audio.")).

Definition onclose : M unit :=
  handleDisconnect ;;
  emit (Dispatch (ErrorEvent "Connection closed, please restart audio.")).

(** ** The public commands *)

(** [play()] up to [await this.getSession()]. *)
Definition play_begin : M PromiseRef :=
  setPlaybackState loading ;;
  getSession.

(** [play()] from the resolution of the session promise with [s] up to
    [await this.setWeightedPrompts(this.prompts)]. *)
Definition play_session (s : SessionRef) (through : bool) : M PromptsStatus :=
  assign (set_session (Some s)) ;;
  h <- this ;;
  setWeightedPrompts through (prompts h).

(** The rest of [play()].  With [this.session] null, [this.session.play()]
    throws inside the [try] and nothing is sent. *)
Definition play_finish : M unit :=
  emit ContextResume ;;
  h <- this ;;
  match session h with
  | Some s => emit (Send s CmdPlay)
  | None => ret tt
  end ;;
  emit (NodeConnect (outputNode h) ContextDestination) ;;
  match extraDestination h with
  | Some d => emit (NodeConnect (outputNode h) (ExtraDestination d))
  | None => ret tt
  end ;;
  emit (GainSetValueAtTime (outputNode h) 0 (currentTime h)) ;;
  emit (GainLinearRampToValueAtTime (outputNode h) 1
          (currentTime h + (1 # 10))%Q).

(** Which method [playPause()] returned the result of. *)
Inductive Invoked : Type :=
  | InvokedPause
  | InvokedPlay (pending : PromiseRef)
  | InvokedStop.

(** [playPause()]; [play()] runs to its first [await]. *)
Definition playPause : M Invoked :=
  h <- this ;;
  match playbackState h with
  | playing => pause ;; ret InvokedPause
  | paused | stopped => p <- play_begin ;; ret (InvokedPlay p)
  | loading => stop ;; ret InvokedStop
  end.

(** ** The event loop around the helper

    Everything that can run against the helper, one constructor per
    run-to-completion segment: the public commands, the continuations of
    the [async] methods, the callbacks of the transport, the timer and
    the progress of the audio clock. *)
Inductive Input : Type :=
  | CallPlay
  | SessionReady (s : SessionRef) (through : bool)
  | PromptsAwaited
  | CallPause
  | CallStop
  | CallPlayPause
  | CallSetWeightedPrompts (through : bool) (ps : list (string * Prompt))
  | SendFailed (message : string)
  | ClientReady (sid : nat)
  | OnMessage (e : LiveMusicServerMessage)
  | Decoded (duration : Q)
  | OnError
  | OnClose
  | TimerFired
  | ClockAdvanced (dt : Q).

Definition discard {A : Type} (m : M A) : M unit := m ;; ret tt.

Definition step (i : Input) : M unit :=
  match i with
  | CallPlay => discard play_begin
  | SessionReady s through => discard (play_session s through)
  | PromptsAwaited => play_finish
  | CallPause => pause
  | CallStop => stop
  | CallPlayPause => discard playPause
  | CallSetWeightedPrompts through ps => discard (setWeightedPrompts through ps)
  | SendFailed message => setWeightedPrompts_catch message
  | ClientReady sid => discard (connect_resume sid)
  | OnMessage e => discard (onmessage e)
  | Decoded duration => discard (processAudioChunks_resume duration)
  | OnError => onerror
  | OnClose => onclose
  | TimerFired => timer_fired
  | ClockAdvanced dt =>
      h <- this ;; assign (set_currentTime (currentTime h + dt)%Q)
  end.

Fixpoint run (trace : list Input) : M unit :=
  match trace with
  | [] => ret tt
  | i :: rest => step i ;; run rest
  end.

(** What the environment can really deliver: the audio clock never runs
    backwards, and a decoded buffer holds at least one frame. *)
Definition valid_input (i : Input) : Prop :=
  match i with
  | ClockAdvanced dt => (0 <= dt)%Q
  | Decoded duration => (0 < duration)%Q
  | _ => True
  end.

(** The inputs that run the function given to [throttle]. *)
Definition effective_call (i : Input) : bool :=
  match i with
  | CallSetWeightedPrompts through _ => through
  | _ => false
  end.

(** The commands sent to the session and the errors shown to the user,
    read off a log of effects. *)
Definition sends (l : list Effect) : list (SessionRef * SessionCmd) :=
  omap (fun e => match e with Send s c => Some (s, c) | _ => None end) l.

Definition errors (l : list Effect) : list string :=
  omap (fun e => match e with
                 | Dispatch (ErrorEvent detail) => Some detail
                 | _ => None
                 end) l.

Definition starts (l : list Effect) : list (Q * Q) :=
  omap (fun e => match e with
                 | SourceStart _ duration when => Some (when, duration)
                 | _ => None
                 end) l.

(** ** Sample helpers and event sequences *)

(** The clock of the audio context moves on by [dt]. *)
Definition advance (dt : Q) (h : Helper) : Helper :=
  set_currentTime (currentTime h + dt)%Q h.

(** A helper in the middle of a stream, for the examples. *)
Definition streaming (state : PlaybackState) (next now : Q) : Helper :=
  set_playbackState state
    (set_nextStartTime next (set_currentTime now new_LiveMusicHelper)).

(** A snapshot with one active prompt, and the same with the prompt
    muted. *)
Definition one_prompt : list (string * Prompt) :=
  [ ("p1", mkPrompt "p1" "Bossa Nova" 1 0 "#9900ff") ].

Definition muted_prompt : list (string * Prompt) :=
  [ ("p1", mkPrompt "p1" "Bossa Nova" 0 0 "#9900ff") ].

(** A helper whose [play()] has run to its end on the session 7. *)
Definition open_session : list Input :=
  [ CallSetWeightedPrompts true one_prompt;
    CallPlay; ClientReady 1; SessionReady 7 true; PromptsAwaited ].

Definition connected : Helper :=
  after (run open_session) new_LiveMusicHelper.

(** A session in which the backend filters a prompt, torn down by [stop()]
    and followed by a new [play()] whose connection is opened. *)
Definition reconnect_after_stop : list Input :=
  [ CallSetWeightedPrompts true one_prompt;
    CallPlay; ClientReady 1; SessionReady 7 true;
    OnMessage (mkMessage true (Some ("banned", "policy")) None);
    CallStop;
    CallPlay; ClientReady 2 ].

(** The same with the transport closing instead of [stop()]. *)
Definition reconnect_after_close : list Input :=
  [ CallSetWeightedPrompts true one_prompt;
    CallPlay; ClientReady 1; SessionReady 7 true;
    OnMessage (mkMessage true (Some ("banned", "policy")) None);
    OnClose;
    CallPlay; ClientReady 2 ].

(** A stream that stalls: one fragment of one second arrives right after
    [play()], the timer of two seconds fires, and no further fragment
    comes while the clock runs on. *)
Definition stalled_stream : list Input :=
  [ CallSetWeightedPrompts true one_prompt;
    CallPlay; ClientReady 1; SessionReady 7 true; PromptsAwaited;
    OnMessage (mkMessage false None (Some [mkAudioChunk "AAAA"]));
    Decoded 1;
    ClockAdvanced 2; TimerFired;
    ClockAdvanced 2 ].

(** What holds of the clocks in every state the helper can reach. *)
Definition clocks_ok (h : Helper) : Prop :=
  (0 <= currentTime h)%Q /\ (0 <= bufferTime h)%Q /\ (0 <= nextStartTime h)%Q.

(** ** More readings of the effect log *)

(** The playback states announced to the listeners, in order. *)
Definition state_events (l : list Effect) : list PlaybackState :=
  omap (fun e => match e with
                 | Dispatch (PlaybackStateChanged s) => Some s
                 | _ => None
                 end) l.

(** The delays of the timers armed. *)
Definition timeouts (l : list Effect) : list Q :=
  omap (fun e => match e with SetTimeout ms => Some ms | _ => None end) l.

(** The calls of the client factory and the connections opened. *)
Definition factory_calls (l : list Effect) : nat :=
  length (omap (fun e => match e with AiFactory => Some tt | _ => None end) l).

Definition connects (l : list Effect) : list PromiseRef :=
  omap (fun e => match e with LiveConnect p => Some p | _ => None end) l.

(** What a listener that follows the [playback-state-changed] events
    believes the state to be, when it believed [s0] before. *)
Definition announced (s0 : PlaybackState) (l : list Effect) : PlaybackState :=
  List.last (state_events l) s0.

(** ** The token endpoint ([api/token.ts]) *)

Module Token.

(** The JSON bodies the handler writes. *)
Inductive Body : Type :=
  | ErrorBody (error : string)
  | TokenBody (token : string).

(** What the handler does to the response and to the SDK. *)
Inductive Action : Type :=
  | NewClient (apiKey apiVersion : string)     (* new GoogleGenAI({...}) *)
  | AuthTokensCreate                           (* ai.authTokens.create({}) *)
  | SetHeader (name value : string)            (* res.setHeader *)
  | Respond (status : Z) (body : Body).        (* res.status(n).json(b) *)

(** How the SDK behaves when it is used: the constructor or the call may
    throw an error (with [err?.message], absent when nullish), or the
    call yields a token (with [token?.name], absent when nullish). *)
Inductive Sdk : Type :=
  | ClientThrows (message : option string)
  | CreateThrows (message : option string)
  | CreateReturns (name : option string).

(** JavaScript truthiness of an optional string. *)
Definition truthy (s : option string) : bool :=
  match s with
  | Some v => negb (String.eqb v "")
  | None => false
  end.

(** The [catch] block. *)
Definition caught (message : option string) : list Action :=
  [ Respond 500 (ErrorBody (default "Internal Server Error" message)) ].

(** [handler(req, res)]: [method] is [req.method], [GEMINI_API_KEY] the
    variable of the environment. *)
Definition handler (method : option string) (GEMINI_API_KEY : option string)
  (sdk : Sdk) : list Action :=
  if negb (bool_decide (method = Some "GET"))
  then [ Respond 405 (ErrorBody "Method Not Allowed") ]
  else
    match GEMINI_API_KEY with
    | Some apiKey =>
        if negb (truthy GEMINI_API_KEY)
        then [ Respond 500 (ErrorBody
                 "Server misconfiguration: GEMINI_API_KEY missing") ]
        else
          match sdk with
          | ClientThrows message => caught message
          | CreateThrows message =>
              NewClient apiKey "v1alpha" :: AuthTokensCreate
                :: caught message
          | CreateReturns name =>
              NewClient apiKey "v1alpha" :: AuthTokensCreate ::
                (if negb (truthy name)
                 then [ Respond 500 (ErrorBody "Failed to create auth token") ]
                 else [ SetHeader "Cache-Control" "no-store";
                        Respond 200 (TokenBody (default "" name)) ])
          end
    | None =>
        [ Respond 500 (ErrorBody
            "Server misconfiguration: GEMINI_API_KEY missing") ]
    end.

Definition responses (l : list Action) : list (Z * Body) :=
  omap (fun a => match a with Respond s b => Some (s, b) | _ => None end) l.

Definition sdk_used (l : list Action) : bool :=
  existsb (fun a => match a with
                    | NewClient _ _ | AuthTokensCreate => true
                    | _ => false
                    end) l.

End Token.

(** ** The prompt grid ([PromptDjMidi]): prompts and the dial gesture *)

Module PromptDjMidi.

(** [Map<string, Prompt>] with its insertion order. *)
Definition PromptMap : Type := list (string * Prompt).

(** [Map.prototype.get] *)
Fixpoint get (m : PromptMap) (key : string) : option Prompt :=
  match m with
  | [] => None
  | (k, v) :: rest => if String.eqb k key then Some v else get rest key
  end.

(** [Map.prototype.set]: an existing key keeps its place. *)
Fixpoint set (m : PromptMap) (key : string) (value : Prompt) : PromptMap :=
  match m with
  | [] => [(key, value)]
  | (k, v) :: rest =>
      if String.eqb k key then (k, value) :: rest
      else (k, v) :: set rest key value
  end.

(** The fields of the component that the prompt updates and the dial
    gesture read and write. *)
Record State : Type := mkState {
  prompts : PromptMap;
  filteredPrompts : gset string;
  activePromptId : option string;
  rotationStartAngle : option Q;
  baseWeight : option Q;
  minWeightAllowed : option Q;
  maxWeightAllowed : option Q;
  pinchStartY : option Q;
}.

Inductive Effect : Type :=
  | RequestUpdate                            (* this.requestUpdate() *)
  | PromptsChanged (detail : PromptMap).     (* the event 'prompts-changed' *)

Definition with_prompts (m : PromptMap) (st : State) : State :=
  mkState m (filteredPrompts st) (activePromptId st) (rotationStartAngle st)
    (baseWeight st) (minWeightAllowed st) (maxWeightAllowed st)
    (pinchStartY st).

(** [{ ...p, weight }] *)
Definition with_weight (p : Prompt) (w : Q) : Prompt :=
  mkPrompt (promptId p) (text p) w (cc p) (color p).

(** [setPromptWeight(promptId, weight)] *)
Definition setPromptWeight (id : string) (w : Q) (st : State)
  : State * list Effect :=
  match get (prompts st) id with
  | None => (st, [])
  | Some p =>
      let newMap := set (prompts st) id (with_weight p w) in
      (with_prompts newMap st, [RequestUpdate; PromptsChanged newMap])
  end.

(** [addFilteredPrompt(prompt)] *)
Definition addFilteredPrompt (prompt : string) (st : State) : State :=
  mkState (prompts st) (filteredPrompts st ∪ {[ prompt ]})
    (activePromptId st) (rotationStartAngle st) (baseWeight st)
    (minWeightAllowed st) (maxWeightAllowed st) (pinchStartY st).

(** The activation of the dial [id] in the hand tracking callbacks, once
    the pinch has been held: the weight found there becomes the base of
    the gesture, and the window of the gesture is one third of the range
    on either side, cut to the range. *)
Definition activateDial (id : string) (handAngle y : Q) (st : State)
  : State :=
  let base := match get (prompts st) id with
              | Some p => weight p
              | None => 0%Q
              end in
  let limit := (2 # 3)%Q in
  mkState (prompts st) (filteredPrompts st) (Some id) (Some handAngle)
    (Some base)
    (Some (Qmax 0 (base - limit)))
    (Some (Qmin 2 (base + limit)))
    (Some y).

(** A number read from a field that may hold [null]. *)
Definition number (x : option Q) : Q := default 0%Q x.

(** The update of the active dial in the same callbacks.  The rotation
    of the hand, scaled, is [rotationComponent]; [y] is the height of
    the pinch and [VALUE_PER_PX] the scale of the vertical movement. *)
Definition updateDial (rotationComponent y VALUE_PER_PX : Q) (st : State)
  : State * list Effect :=
  match activePromptId st, rotationStartAngle st, baseWeight st with
  | Some id, Some _, Some base =>
      if String.eqb id "" then (st, [])
      else
        let verticalPx := match pinchStartY st with
                          | Some y0 => (y0 - y)%Q
                          | None => 0%Q
                          end in
        let verticalComponent := (verticalPx * VALUE_PER_PX)%Q in
        let proposed := (base + rotationComponent + verticalComponent)%Q in
        let clamped := Qmax (number (minWeightAllowed st))
                         (Qmin (number (maxWeightAllowed st)) proposed) in
        setPromptWeight id clamped st
  | _, _, _ => (st, [])
  end.

(** The updates of one gesture, one after the other. *)
Fixpoint updateDials (moves : list (Q * Q * Q)) (st : State) : State :=
  match moves with
  | [] => st
  | (rotationComponent, y, VALUE_PER_PX) :: rest =>
      updateDials rest (fst (updateDial rotationComponent y VALUE_PER_PX st))
  end.

(** *** The piano banner *)

(** A key of the banner: its rectangle and its MIDI note. *)
Record PianoKey : Type := mkKey {
  key_x : Q;
  key_y : Q;
  key_w : Q;
  key_h : Q;
  note : Z;
}.

Definition WHITE_KEY_STEPS : list Z := [2; 2; 1; 2; 2; 2; 1]%Z.

(** The [while] loop of [computePianoKeys], by the number of rounds it
    still has to make. *)
Fixpoint extendNotes (rounds : nat) (notes : list Z) : list Z :=
  match rounds with
  | O => notes
  | S rounds' =>
      let idx := ((length notes - 1) mod length WHITE_KEY_STEPS)%nat in
      extendNotes rounds'
        (notes ++ [(List.last notes 0 + nth idx WHITE_KEY_STEPS 0)%Z])
  end.

(** The notes of the 23 keys, from C4 up: the loop runs until the list
    has [totalKeys] entries. *)
Definition pianoNotes : list Z := extendNotes (23 - 1) [60%Z].

(** [computePianoKeys(hostRect)]: the value given to [this.pianoKeys].
    The literal [0.14] is the double nearest to 14/100; the height of the
    banner, the width of a key and the left edge [i * keyW] of each key
    are rounded as they are computed. *)
Definition computePianoKeys (width height : Q) : list PianoKey :=
  let bannerHeight := Qmax 60 (fmul height (binary64 (14 # 100))) in
  let keyW := fdiv width (inject_Z (Z.of_nat (length pianoNotes))) in
  imap (fun i n =>
          mkKey (fmul (inject_Z (Z.of_nat i)) keyW) 0 keyW bannerHeight n)
    pianoNotes.

(** The test of [hitTestPiano] for one key; [k.x + k.w] and [k.y + k.h]
    are sums of doubles. *)
Definition inKey (k : PianoKey) (x y : Q) : bool :=
  Qle_bool (key_x k) x && Qle_bool x (fadd (key_x k) (key_w k))
  && Qle_bool (key_y k) y && Qle_bool y (fadd (key_y k) (key_h k)).

(** [hitTestPiano(x, y)] over the keys from the index [i] on. *)
Fixpoint hitTestFrom (i : nat) (keys : list PianoKey) (x y : Q)
  : option nat :=
  match keys with
  | [] => None
  | k :: rest => if inKey k x y then Some i else hitTestFrom (S i) rest x y
  end.

Definition hitTestPiano (keys : list PianoKey) (x y : Q) : option nat :=
  hitTestFrom 0 keys x y.

(** The fields of the component that the piano banner and the small
    synthesiser read and write.  [audioCtx] tells whether the context has
    been created, [activeVoices] maps a voice identifier to its
    oscillator, [created] counts the oscillators made so far. *)
Record Synth : Type := mkSynth {
  pianoKeys : list PianoKey;
  pinchActiveKeyIndex : option nat;
  activeVoices : gmap string nat;
  audioCtx : bool;
  selectedInstrument : nat;
  created : nat;
}.

Definition instruments : list string :=
  ["piano"; "guitar"; "sitar"; "flute"; "violin"; "bass"; "drums"].

Inductive SynthEffect : Type :=
  | PlayDrum                                      (* this.playDrum(...) *)
  | VoiceStart (o : nat) (insKey : string) (noteAdj : Z)   (* o.start() *)
  | VoiceStop (o : nat).                          (* o.stop(now + 0.1) *)

Definition new_Synth : Synth :=
  mkSynth [] None ∅ false 0 0.

(** [noteOn(id, midiNote)]; [contextOk] tells whether the constructor of
    the audio context succeeds when [ensureSynth] has to call it. *)
Definition noteOn (contextOk : bool) (id : string) (midiNote : Z) (s : Synth)
  : Synth * list SynthEffect :=
  let ctx := audioCtx s || contextOk in
  let s1 := mkSynth (pianoKeys s) (pinchActiveKeyIndex s) (activeVoices s)
              ctx (selectedInstrument s) (created s) in
  if negb ctx then (s1, [])
  else
    let insKey := default "piano" (instruments !! selectedInstrument s) in
    let noteAdj := if String.eqb insKey "bass" then (midiNote - 12)%Z
                   else midiNote in
    if String.eqb insKey "drums" then (s1, [PlayDrum])
    else
      let o := created s in
      (mkSynth (pianoKeys s) (pinchActiveKeyIndex s)
         (<[ id := o ]> (activeVoices s)) ctx (selectedInstrument s) (S o),
       [VoiceStart o insKey noteAdj]).

(** [noteOff(id)]; the calls on the audio nodes are taken not to
    throw. *)
Definition noteOff (id : string) (s : Synth) : Synth * list SynthEffect :=
  if negb (audioCtx s) then (s, [])
  else
    match activeVoices s !! id with
    | None => (s, [])
    | Some o =>
        (mkSynth (pianoKeys s) (pinchActiveKeyIndex s)
           (delete id (activeVoices s)) (audioCtx s) (selectedInstrument s)
           (created s),
         [VoiceStop o])
    end.

Definition with_index (i : option nat) (s : Synth) : Synth :=
  mkSynth (pianoKeys s) i (activeVoices s) (audioCtx s)
    (selectedInstrument s) (created s).

(** [handlePianoPinch(isPinching, pinchPoint)] *)
Definition handlePianoPinch (contextOk : bool) (isPinching : bool)
  (pinchPoint : option (Q * Q)) (s : Synth) : Synth * list SynthEffect :=
  match (if isPinching then pinchPoint else None) with
  | None =>
      match pinchActiveKeyIndex s with
      | Some _ =>
          let '(s1, e1) := noteOff "pinch" s in (with_index None s1, e1)
      | None => (s, [])
      end
  | Some (x, y) =>
      let keyIndex := hitTestPiano (pianoKeys s) x y in
      let prev := pinchActiveKeyIndex s in
      match keyIndex with
      | Some i =>
          if bool_decide (keyIndex = prev) then (s, [])
          else
            let '(s1, e1) := match prev with
                             | Some _ => noteOff "pinch" s
                             | None => (s, [])
                             end in
            let midiNote := match pianoKeys s !! i with
                            | Some k => note k
                            | None => 0%Z
                            end in
            let '(s2, e2) := noteOn contextOk "pinch" midiNote s1 in
            (with_index (Some i) s2, e1 ++ e2)
      | None =>
          match prev with
          | Some _ =>
              let '(s1, e1) := noteOff "pinch" s in (with_index None s1, e1)
          | None => (s, [])
          end
      end
  end.

(** What happens to the banner: a frame of hand tracking, the choice of
    an instrument, a new size of the host. *)
Inductive SynthInput : Type :=
  | Pinch (contextOk isPinching : bool) (pinchPoint : option (Q * Q))
  | SelectInstrument (index : nat)
  | Resize (width height : Q).

Definition synthStep (i : SynthInput) (s : Synth) : Synth * list SynthEffect :=
  match i with
  | Pinch contextOk isPinching pinchPoint =>
      handlePianoPinch contextOk isPinching pinchPoint s
  | SelectInstrument index =>
      (mkSynth (pianoKeys s) (pinchActiveKeyIndex s) (activeVoices s)
         (audioCtx s) index (created s), [])
  | Resize width height =>
      (mkSynth (computePianoKeys width height) (pinchActiveKeyIndex s)
         (activeVoices s) (audioCtx s) (selectedInstrument s) (created s), [])
  end.

Fixpoint synthRun (inputs : list SynthInput) (s : Synth)
  : Synth * list SynthEffect :=
  match inputs with
  | [] => (s, [])
  | i :: rest =>
      let '(s1, e1) := synthStep i s in
      let '(s2, e2) := synthRun rest s1 in
      (s2, e1 ++ e2)
  end.

(** The oscillators that have been started and not yet asked to stop
    after a log of effects, when those of [sounding] were before.  The
    release that follows the call of [stop] is not counted. *)
Fixpoint soundingAfter (sounding : list nat) (log : list SynthEffect)
  : list nat :=
  match log with
  | [] => sounding
  | VoiceStart o _ _ :: rest => soundingAfter (sounding ++ [o]) rest
  | VoiceStop o :: rest =>
      soundingAfter (List.filter (fun v => negb (Nat.eqb v o)) sounding) rest
  | PlayDrum :: rest => soundingAfter sounding rest
  end.


(** The oscillator registered for the pinch, and what ties it to the
    other fields. *)
Definition pinchVoices (s : Synth) : list nat :=
  option_list (activeVoices s !! "pinch").

Definition voices_ok (s : Synth) (sounding : list nat) : Prop :=
  sounding = pinchVoices s /\
  (pinchVoices s <> [] ->
   pinchActiveKeyIndex s <> None /\ audioCtx s = true).

(** The inputs that end a pinch. *)
Definition releases (i : SynthInput) : Prop :=
  match i with
  | Pinch _ isPinching pinchPoint => isPinching = false \/ pinchPoint = None
  | _ => False
  end.

End PromptDjMidi.

(** ** The prompt map as a shared object

    [setWeightedPrompts] stores the [Map] it is given, not a copy of it,
    and the prompt grid, which builds these maps, keeps writing to the
    [Prompt] objects they hold.  Here the maps and the prompts are
    objects of a store, known by reference. *)

Module Shared.

Definition PromptRef := nat.    (* a [Prompt] object *)
Definition MapRef := nat.       (* a [Map<string, Prompt>] object *)

(** The [Prompt] objects and the [Map] objects made so far, each known by
    its index.  A map lists its keys in the order of their insertion,
    each with the object it refers to. *)
Record Store : Type := mkStore {
  promptObjects : list Prompt;
  mapObjects : list (list (string * PromptRef));
}.

Definition entries (st : Store) (m : MapRef) : list (string * PromptRef) :=
  default [] (mapObjects st !! m).

(** What a reader of the map sees: each key with its object as the
    object is now. *)
Definition contents (st : Store) (m : MapRef) : list (string * Prompt) :=
  omap (fun kr : string * PromptRef =>
          match promptObjects st !! snd kr with
          | Some p => Some (fst kr, p)
          | None => None
          end)
    (entries st m).

(** [map.get(key)] and [map.set(key, value)] on the entries of a map. *)
Fixpoint mapGet (l : list (string * PromptRef)) (key : string)
  : option PromptRef :=
  match l with
  | [] => None
  | (k, r) :: rest => if String.eqb k key then Some r else mapGet rest key
  end.

Fixpoint mapSet (l : list (string * PromptRef)) (key : string)
  (value : PromptRef) : list (string * PromptRef) :=
  match l with
  | [] => [(key, value)]
  | (k, r) :: rest =>
      if String.eqb k key then (k, value) :: rest
      else (k, r) :: mapSet rest key value
  end.

(** A caller builds a map of its own that holds [ps], with new objects. *)
Definition newMap (ps : list (string * Prompt)) (st : Store)
  : MapRef * Store :=
  let base := length (promptObjects st) in
  (length (mapObjects st),
   mkStore (promptObjects st ++ map snd ps)
     (mapObjects st
      ++ [imap (fun i (kp : string * Prompt) => (fst kp, (base + i)%nat)) ps])).

(** The helper and the prompt grid around the store: [helperPrompts] is
    the field [prompts] of the helper, [gridPrompts] that of the grid.
    The field [prompts] of [helper] is not read here: a segment of the
    helper is given the contents of [helperPrompts] as they are when it
    runs. *)
Record World : Type := mkWorld {
  store : Store;
  helper : Helper;
  helperPrompts : MapRef;
  gridPrompts : MapRef;
}.

(** The grid constructed with a map of the prompts [initial] (the map 1),
    and the helper with the empty map of its constructor (the map 0). *)
Definition new_World (initial : list (string * Prompt)) : World :=
  mkWorld
    (mkStore (map snd initial)
       [ []; imap (fun i (kp : string * Prompt) => (fst kp, i)) initial ])
    new_LiveMusicHelper 0%nat 1%nat.

(** A segment of the helper that does not assign [this.prompts], run in
    the world.  The helper reads its map within the segment, through
    [activePrompts] and [this.prompts]; it finds the contents the map has
    at that moment. *)
Definition in_world {A : Type} (m : M A) (w : World)
  : A * World * list Effect :=
  let '(a, h, e) :=
    m (set_prompts (contents (store w) (helperPrompts w)) (helper w)) in
  (a, mkWorld (store w) h (helperPrompts w) (gridPrompts w), e).

(** [setWeightedPrompts(prompts)] called with the map [m]: the function
    given to [throttle] stores the reference and goes on with what the
    map holds. *)
Definition setWeightedPrompts (through : bool) (m : MapRef) (w : World)
  : PromptsStatus * World * list Effect :=
  if through
  then in_world (setWeightedPrompts_begin (contents (store w) m))
         (mkWorld (store w) (helper w) m (gridPrompts w))
  else (Throttled, w, []).

(** The object [prompt] after [prompt.text = text], [prompt.weight =
    weight] and [prompt.cc = cc]. *)
Definition written (prompt : Prompt) (text : string) (weight : Q) (cc : Z)
  : Prompt :=
  mkPrompt (promptId prompt) text weight cc (color prompt).

(** [handlePromptChanged(e)] of the prompt grid: the prompt found under
    [promptId] is written in place, a copy of the map is made and becomes
    the map of the grid.  The result is the detail of the event
    [prompts-changed], if it is dispatched. *)
Definition handlePromptChanged (promptId text : string) (weight : Q) (cc : Z)
  (w : World) : World * option MapRef :=
  let st := store w in
  match mapGet (entries st (gridPrompts w)) promptId with
  | None => (w, None)
  | Some r =>
      match promptObjects st !! r with
      | None => (w, None)
      | Some prompt =>
          let newPrompts := mapSet (entries st (gridPrompts w)) promptId r in
          let m := length (mapObjects st) in
          (mkWorld
             (mkStore
                (<[ r := written prompt text weight cc ]> (promptObjects st))
                (mapObjects st ++ [newPrompts]))
             (helper w) (helperPrompts w) m,
           Some m)
      end
  end.

(** What can happen in the world: a segment of the helper (a call of
    [setWeightedPrompts] among them passes a map the caller has built
    for the occasion), a call of [setWeightedPrompts] with a map of the
    store, a change of a prompt in the grid. *)
Inductive WorldInput : Type :=
  | Segment (i : Input)
  | CallSetWeightedPromptsOf (through : bool) (m : MapRef)
  | PromptChanged (promptId text : string) (weight : Q) (cc : Z).

Definition world_step (i : WorldInput) (w : World) : World * list Effect :=
  match i with
  | Segment (CallSetWeightedPrompts through ps) =>
      let '(m, st) := newMap ps (store w) in
      let '(_, w1, e) :=
        setWeightedPrompts through m
          (mkWorld st (helper w) (helperPrompts w) (gridPrompts w)) in
      (w1, e)
  | Segment i' => let '(_, w1, e) := in_world (step i') w in (w1, e)
  | CallSetWeightedPromptsOf through m =>
      let '(_, w1, e) := setWeightedPrompts through m w in (w1, e)
  | PromptChanged promptId text weight cc =>
      (fst (handlePromptChanged promptId text weight cc w), [])
  end.

Fixpoint world_run (trace : list WorldInput) (w : World)
  : World * list Effect :=
  match trace with
  | [] => (w, [])
  | i :: rest =>
      let '(w1, e1) := world_step i w in
      let '(w2, e2) := world_run rest w1 in
      (w2, e1 ++ e2)
  end.

(** The inputs that run the function given to [throttle]. *)
Definition effective (i : WorldInput) : bool :=
  match i with
  | Segment (CallSetWeightedPrompts through _) => through
  | CallSetWeightedPromptsOf through _ => through
  | _ => false
  end.

(** The inputs that leave the store as it is: all but a change in the
    grid and the making of a map. *)
Definition reads_only (i : WorldInput) : bool :=
  match i with
  | Segment (CallSetWeightedPrompts _ _) => false
  | PromptChanged _ _ _ _ => false
  | _ => true
  end.

End Shared.

(** ** Properties *)

#[local] Arguments Qplus : simpl never.
#[local] Arguments Qmult : simpl never.
#[local] Arguments Qle_bool : simpl never.
#[local] Arguments Qeq_bool : simpl never.
#[local] Arguments binary64 : simpl never.
#[local] Arguments fadd : simpl never.
#[local] Arguments fsub : simpl never.
#[local] Arguments fmul : simpl never.
#[local] Arguments fdiv : simpl never.

Create HintDb method discriminated.
#[local] Hint Unfold after effects result bind ret this assign emit alloc
  discard setPlaybackState processAudioChunks_begin processAudioChunks_resume
  processAudioChunks_resume64
  timer_fired pause stop handleDisconnect setWeightedPrompts_begin
  setWeightedPrompts_catch setWeightedPrompts_run setWeightedPrompts
  connect_begin connect_resume getSession onmessage onerror onclose
  play_begin play_session play_finish playPause : method.

(** Run the body of a method symbolically; the tests it makes stay in the
    goal until [method_cases] or a rewrite decides them. *)
Ltac unfold_method := repeat autounfold with method; cbn.

(** Outside [unfold_method] the methods stay folded. *)
#[local] Arguments processAudioChunks_begin : simpl never.
#[local] Arguments processAudioChunks_resume : simpl never.
#[local] Arguments processAudioChunks_resume64 : simpl never.
#[local] Arguments timer_fired : simpl never.
#[local] Arguments pause : simpl never.
#[local] Arguments stop : simpl never.
#[local] Arguments handleDisconnect : simpl never.
#[local] Arguments setWeightedPrompts_begin : simpl never.
#[local] Arguments setWeightedPrompts_catch : simpl never.
#[local] Arguments setWeightedPrompts_run : simpl never.
#[local] Arguments setWeightedPrompts : simpl never.
#[local] Arguments connect_begin : simpl never.
#[local] Arguments connect_resume : simpl never.
#[local] Arguments getSession : simpl never.
#[local] Arguments onmessage : simpl never.
#[local] Arguments onerror : simpl never.
#[local] Arguments onclose : simpl never.
#[local] Arguments play_begin : simpl never.
#[local] Arguments play_session : simpl never.
#[local] Arguments play_finish : simpl never.
#[local] Arguments playPause : simpl never.
#[local] Arguments step : simpl never.
#[local] Arguments run : simpl never.

Ltac method_cases :=
  repeat match goal with
         | |- context [match ?x with _ => _ end] =>
             lazymatch x with
             | context [match _ with _ => _ end] => fail
             | _ => destruct x eqn:?; cbn
             end
         end.

(** *** Comparisons of times *)

Lemma Qltb_true (x y : Q) : Qltb x y = true <-> (x < y)%Q.
Proof.
  unfold Qltb. rewrite negb_true_iff. split.
  - intros H. apply Qnot_le_lt. intros Hle.
    apply Qle_bool_iff in Hle. congruence.
  - intros H. destruct (Qle_bool y x) eqn:E; [|reflexivity].
    apply Qle_bool_iff in E. lra.
Qed.

Lemma Qltb_false (x y : Q) : Qltb x y = false <-> (y <= x)%Q.
Proof.
  unfold Qltb. rewrite negb_false_iff. apply Qle_bool_iff.
Qed.

Lemma Qltb_false_le (x y : Q) : (y < x)%Q -> Qle_bool x y = false.
Proof.
  intros H. destruct (Qle_bool x y) eqn:E; [|reflexivity].
  apply Qle_bool_iff in E. lra.
Qed.

Lemma Qeq_bool_false (x y : Q) : Qeq_bool x y = false <-> ~ (x == y)%Q.
Proof.
  split.
  - apply Qeq_bool_neq.
  - intros H. destruct (Qeq_bool x y) eqn:E; [|reflexivity].
    apply Qeq_bool_iff in E. contradiction.
Qed.

(** *** Rounding to a double *)

Section Rounding.
Local Open Scope Q_scope.

Lemma pow2_pos (z : Z) : 0 < 2 ^ z.
Proof. apply Qpower_0_lt. reflexivity. Qed.

Lemma pow2_succ (z : Z) : 2 ^ (z + 1) == 2 * 2 ^ z.
Proof.
  rewrite Qpower_plus by discriminate. change (2 ^ 1) with 2%Q. ring.
Qed.

Lemma pow2_le (a b : Z) : (a <= b)%Z -> 2 ^ a <= 2 ^ b.
Proof. intros H. apply Qpower_le_compat_l; [exact H | discriminate]. Qed.

Lemma Zlog2_Q (n : Z) :
  (0 < n)%Z ->
  2 ^ Z.log2 n <= inject_Z n /\ inject_Z n < 2 * 2 ^ Z.log2 n.
Proof.
  intros Hn. destruct (Z.log2_spec n Hn) as [Hlo Hhi].
  pose proof (Z.log2_nonneg n) as H0.
  split.
  - change 2%Q with (inject_Z 2). rewrite <- Zpower_Qpower by exact H0.
    rewrite <- Zle_Qle. exact Hlo.
  - rewrite <- pow2_succ. unfold Z.succ in Hhi.
    change 2%Q with (inject_Z 2). rewrite <- Zpower_Qpower by lia.
    rewrite <- Zlt_Qlt. exact Hhi.
Qed.

Lemma ilog2_spec (q : Q) :
  0 < q -> 2 ^ ilog2 q <= q /\ q < 2 ^ (ilog2 q + 1).
Proof.
  intros Hq. unfold ilog2.
  set (a := Z.log2 (Qnum q)). set (b := Z.log2 (Zpos (Qden q))).
  assert (Hn : (0 < Qnum q)%Z).
  { unfold Qlt in Hq. cbn in Hq. lia. }
  destruct (Zlog2_Q (Qnum q) Hn) as [Ha1 Ha2]. fold a in Ha1, Ha2.
  destruct (Zlog2_Q (Zpos (Qden q)) eq_refl) as [Hb1 Hb2]. fold b in Hb1, Hb2.
  assert (Hqd : q * inject_Z (Zpos (Qden q)) == inject_Z (Qnum q)).
  { destruct q as [n d]. unfold Qeq, Qmult, inject_Z. cbn [Qnum Qden].
    rewrite Pos.mul_1_r. ring. }
  pose proof (pow2_pos a) as HA. pose proof (pow2_pos b) as HB.
  assert (Hk : 2 ^ (a - b) * 2 ^ b == 2 ^ a).
  { rewrite <- Qpower_plus by discriminate. replace (a - b + b)%Z with a by ring.
    reflexivity. }
  pose proof (pow2_pos (a - b)) as HK.
  assert (Hup : q < 2 * 2 ^ (a - b)).
  { apply Qnot_le_lt. intros Hle.
    assert (2 * 2 ^ (a - b) * 2 ^ b <= q * inject_Z (Zpos (Qden q))) by nra.
    nra. }
  assert (Hlow : 2 ^ (a - b) < 2 * q).
  { apply Qnot_le_lt. intros Hle.
    assert (2 * q * inject_Z (Zpos (Qden q)) <= 2 ^ (a - b) * (2 * 2 ^ b)) by nra.
    nra. }
  destruct (Qle_bool (2 ^ (a - b)) q) eqn:E.
  - apply Qle_bool_iff in E. split; [exact E|]. rewrite pow2_succ. exact Hup.
  - assert (Hlt : q < 2 ^ (a - b)).
    { apply Qnot_le_lt. intros Hle. apply Qle_bool_iff in Hle. congruence. }
    replace (a - b - 1 + 1)%Z with (a - b)%Z by ring.
    split; [|exact Hlt].
    assert (Hh : 2 * 2 ^ (a - b - 1) == 2 ^ (a - b)).
    { rewrite <- pow2_succ. replace (a - b - 1 + 1)%Z with (a - b)%Z by ring.
      reflexivity. }
    lra.
Qed.

Lemma rne_near (x : Q) :
  x - (1 # 2) <= inject_Z (rne x) /\ inject_Z (rne x) <= x + (1 # 2).
Proof.
  unfold rne.
  pose proof (Qfloor_le x) as Hlo. pose proof (Qlt_floor x) as Hhi.
  rewrite inject_Z_plus in Hhi. change (inject_Z 1) with 1%Q in Hhi.
  set (f := Qfloor x) in *.
  destruct (x - inject_Z f ?= 1 # 2) eqn:E.
  - apply Qeq_alt in E.
    destruct (Z.even f); rewrite ?inject_Z_plus;
      change (inject_Z 1) with 1%Q; lra.
  - apply Qlt_alt in E. lra.
  - apply Qgt_alt in E. rewrite inject_Z_plus.
    change (inject_Z 1) with 1%Q. lra.
Qed.

Lemma rne_comp (x y : Q) : x == y -> rne x = rne y.
Proof.
  intros E. unfold rne. rewrite (Qfloor_comp x y E).
  assert (Ec : (x - inject_Z (Qfloor y) ?= 1 # 2)
               = (y - inject_Z (Qfloor y) ?= 1 # 2)).
  { apply Qcompare_comp; [rewrite E; reflexivity | reflexivity]. }
  rewrite Ec. reflexivity.
Qed.

Lemma rne_mono (x y : Q) : x <= y -> (rne x <= rne y)%Z.
Proof.
  intros Hxy.
  destruct (Z.le_gt_cases (rne x) (rne y)) as [H | H]; [exact H|].
  exfalso.
  destruct (rne_near x) as [_ Hx]. destruct (rne_near y) as [Hy _].
  assert (Hz : inject_Z (rne y) + 1 <= inject_Z (rne x)).
  { change 1%Q with (inject_Z 1). rewrite <- inject_Z_plus, <- Zle_Qle. lia. }
  assert (E : x == y) by lra.
  apply rne_comp in E. lia.
Qed.

Lemma rne_Z (z : Z) : rne (inject_Z z) = z.
Proof.
  unfold rne. rewrite Qfloor_Z.
  assert (E : (inject_Z z - inject_Z z ?= 1 # 2) = Lt).
  { apply (proj1 (Qlt_alt _ _)). generalize (inject_Z z). intros q. lra. }
  rewrite E. reflexivity.
Qed.

Lemma scaled_range (q : Q) :
  0 < q ->
  let e := (ilog2 q - 52)%Z in
  2 ^ 52 <= q / 2 ^ e /\ q / 2 ^ e < 2 ^ 53.
Proof.
  intros Hq e. destruct (ilog2_spec q Hq) as [Hlo Hhi].
  pose proof (pow2_pos e) as He.
  assert (E1 : 2 ^ ilog2 q == 2 ^ 52 * 2 ^ e).
  { rewrite <- Qpower_plus by discriminate. unfold e.
    replace (52 + (ilog2 q - 52))%Z with (ilog2 q) by ring. reflexivity. }
  assert (E2 : 2 ^ (ilog2 q + 1) == 2 ^ 53 * 2 ^ e).
  { rewrite <- Qpower_plus by discriminate. unfold e.
    replace (53 + (ilog2 q - 52))%Z with (ilog2 q + 1)%Z by ring.
    reflexivity. }
  split.
  - apply Qle_shift_div_l; [exact He|]. rewrite <- E1. exact Hlo.
  - apply Qlt_shift_div_r; [exact He|]. rewrite <- E2. exact Hhi.
Qed.

Lemma round53_range (q : Q) :
  0 < q -> 2 ^ ilog2 q <= round53 q /\ round53 q <= 2 ^ (ilog2 q + 1).
Proof.
  intros Hq. unfold round53. set (e := (ilog2 q - 52)%Z).
  destruct (scaled_range q Hq) as [Hlo Hhi]. fold e in Hlo, Hhi.
  pose proof (pow2_pos e) as He.
  assert (H52 : (2 ^ 52 <= rne (q / 2 ^ e))%Z).
  { rewrite <- (rne_Z (2 ^ 52)). apply rne_mono.
    rewrite Zpower_Qpower by lia. exact Hlo. }
  assert (H53 : (rne (q / 2 ^ e) <= 2 ^ 53)%Z).
  { rewrite <- (rne_Z (2 ^ 53)). apply rne_mono.
    rewrite Zpower_Qpower by lia. apply Qlt_le_weak. exact Hhi. }
  rewrite Zle_Qle in H52, H53.
  rewrite Zpower_Qpower in H52, H53 by lia.
  change (inject_Z 2) with 2%Q in H52, H53.
  assert (E1 : 2 ^ ilog2 q == 2 ^ 52 * 2 ^ e).
  { rewrite <- Qpower_plus by discriminate. unfold e.
    replace (52 + (ilog2 q - 52))%Z with (ilog2 q) by ring. reflexivity. }
  assert (E2 : 2 ^ (ilog2 q + 1) == 2 ^ 53 * 2 ^ e).
  { rewrite <- Qpower_plus by discriminate. unfold e.
    replace (53 + (ilog2 q - 52))%Z with (ilog2 q + 1)%Z by ring.
    reflexivity. }
  rewrite E1, E2. split; apply Qmult_le_compat_r; lra.
Qed.

Lemma ilog2_mono (x y : Q) : 0 < x -> x <= y -> (ilog2 x <= ilog2 y)%Z.
Proof.
  intros Hx Hxy.
  destruct (ilog2_spec x Hx) as [Hlo _].
  destruct (ilog2_spec y) as [_ Hhi]; [lra|].
  assert (Hlt : 2 ^ ilog2 x < 2 ^ (ilog2 y + 1)) by lra.
  apply Qpower_lt_compat_l_inv in Hlt; [lia | reflexivity].
Qed.

Lemma round53_mono (x y : Q) : 0 < x -> x <= y -> round53 x <= round53 y.
Proof.
  intros Hx Hxy. assert (Hy : 0 < y) by lra.
  pose proof (ilog2_mono x y Hx Hxy) as HL.
  destruct (Z.eq_dec (ilog2 x) (ilog2 y)) as [E | Hne].
  - unfold round53. rewrite E. set (e := (ilog2 y - 52)%Z).
    pose proof (pow2_pos e) as He.
    apply Qmult_le_compat_r; [|lra].
    rewrite <- Zle_Qle. apply rne_mono.
    apply Qmult_le_compat_r; [exact Hxy|].
    apply Qlt_le_weak, Qinv_lt_0_compat. exact He.
  - destruct (round53_range x Hx) as [_ Hux].
    destruct (round53_range y Hy) as [Hly _].
    assert (Hp : 2 ^ (ilog2 x + 1) <= 2 ^ ilog2 y) by (apply pow2_le; lia).
    lra.
Qed.

Lemma round53_error (q : Q) :
  0 < q ->
  q - q / 2 ^ 53 <= round53 q /\ round53 q <= q + q / 2 ^ 53.
Proof.
  intros Hq. unfold round53. set (e := (ilog2 q - 52)%Z).
  destruct (ilog2_spec q Hq) as [Hlo _].
  pose proof (pow2_pos e) as He.
  destruct (rne_near (q / 2 ^ e)) as [Hn1 Hn2].
  assert (E1 : 2 ^ ilog2 q == 2 ^ 52 * 2 ^ e).
  { rewrite <- Qpower_plus by discriminate. unfold e.
    replace (52 + (ilog2 q - 52))%Z with (ilog2 q) by ring. reflexivity. }
  assert (Eq : q / 2 ^ e * 2 ^ e == q) by (field; lra).
  assert (Hhalf : (1 # 2) * 2 ^ e <= q / 2 ^ 53).
  { apply Qle_shift_div_l; [reflexivity|].
    change (2 ^ 53) with (2 * 2 ^ 52). lra. }
  set (r := inject_Z (rne (q / 2 ^ e))) in *.
  assert (H1 : (q / 2 ^ e - (1 # 2)) * 2 ^ e <= r * 2 ^ e)
    by (apply Qmult_le_compat_r; lra).
  assert (H2 : r * 2 ^ e <= (q / 2 ^ e + (1 # 2)) * 2 ^ e)
    by (apply Qmult_le_compat_r; lra).
  lra.
Qed.

Lemma binary64_eq (q : Q) :
  binary64 q == match q ?= 0 with
                | Eq => 0
                | Gt => round53 q
                | Lt => - round53 (- q)
                end.
Proof. unfold binary64. apply Qred_correct. Qed.

Lemma binary64_pos (q : Q) : 0 < q -> binary64 q == round53 q.
Proof.
  intros Hq. rewrite binary64_eq.
  assert (E : (q ?= 0) = Gt) by (apply (proj1 (Qgt_alt _ _)); exact Hq).
  rewrite E. reflexivity.
Qed.

Lemma binary64_0 (q : Q) : q == 0 -> binary64 q == 0.
Proof.
  intros Hq. rewrite binary64_eq.
  assert (E : (q ?= 0) = Eq) by (apply (proj1 (Qeq_alt _ _)); exact Hq).
  rewrite E. reflexivity.
Qed.

Lemma binary64_mono (x y : Q) : 0 <= x -> x <= y -> binary64 x <= binary64 y.
Proof.
  intros Hx Hxy.
  destruct (Qlt_le_dec 0 x) as [Hpos | Hle].
  - rewrite (binary64_pos x Hpos), (binary64_pos y) by lra.
    apply round53_mono; assumption.
  - rewrite (binary64_0 x) by lra.
    destruct (Qlt_le_dec 0 y) as [Hy | Hy].
    + rewrite (binary64_pos y Hy).
      destruct (round53_range y Hy) as [Hl _].
      pose proof (pow2_pos (ilog2 y)). lra.
    + rewrite (binary64_0 y) by lra. lra.
Qed.

Lemma binary64_error (q : Q) :
  0 <= q ->
  q - q / 2 ^ 53 <= binary64 q /\ binary64 q <= q + q / 2 ^ 53.
Proof.
  intros Hq. destruct (Qlt_le_dec 0 q) as [Hpos | Hle].
  - rewrite (binary64_pos q Hpos). apply round53_error. exact Hpos.
  - assert (E : q == 0) by lra. rewrite (binary64_0 q E), E.
    split; apply Qle_bool_imp_le; reflexivity.
Qed.

Lemma pow2_shift (k e : Z) : 2 ^ (k + e) == 2 ^ k * 2 ^ e.
Proof. apply Qpower_plus. discriminate. Qed.

Lemma significand_range (q : Q) :
  0 < q ->
  (2 ^ 52 <= rne (q / 2 ^ (ilog2 q - 52)) <= 2 ^ 53)%Z.
Proof.
  intros Hq. destruct (scaled_range q Hq) as [Hlo Hhi]. cbv zeta in Hlo, Hhi.
  split.
  - rewrite <- (rne_Z (2 ^ 52)) at 1. apply rne_mono.
    rewrite Zpower_Qpower by lia. exact Hlo.
  - rewrite <- (rne_Z (2 ^ 53)). apply rne_mono.
    rewrite Zpower_Qpower by lia. apply Qlt_le_weak. exact Hhi.
Qed.

Lemma ilog2_unique (q : Q) (k : Z) :
  0 < q -> 2 ^ k <= q -> q < 2 ^ (k + 1) -> ilog2 q = k.
Proof.
  intros Hq Hlo Hhi. destruct (ilog2_spec q Hq) as [Hlo' Hhi'].
  assert (H1 : 2 ^ k < 2 ^ (ilog2 q + 1)) by lra.
  assert (H2 : 2 ^ ilog2 q < 2 ^ (k + 1)) by lra.
  apply Qpower_lt_compat_l_inv in H1; [|reflexivity].
  apply Qpower_lt_compat_l_inv in H2; [|reflexivity].
  lia.
Qed.

Lemma ilog2_comp (x y : Q) : 0 < x -> x == y -> ilog2 x = ilog2 y.
Proof.
  intros Hx E. destruct (ilog2_spec x Hx) as [Hlo Hhi].
  symmetry. apply ilog2_unique; rewrite <- E; assumption.
Qed.

Lemma round53_comp (x y : Q) : 0 < x -> x == y -> round53 x == round53 y.
Proof.
  intros Hx E. unfold round53. rewrite (ilog2_comp x y Hx E).
  set (e := (ilog2 y - 52)%Z).
  assert (Er : rne (x / 2 ^ e) = rne (y / 2 ^ e)).
  { apply rne_comp. rewrite E. reflexivity. }
  rewrite Er. reflexivity.
Qed.

Lemma round53_pos (q : Q) : 0 < q -> 0 < round53 q.
Proof.
  intros Hq. destruct (round53_range q Hq) as [Hlo _].
  pose proof (pow2_pos (ilog2 q)). lra.
Qed.

Lemma round53_idem (q : Q) : 0 < q -> round53 (round53 q) == round53 q.
Proof.
  intros Hq. pose proof (round53_pos q Hq) as Hr.
  destruct (significand_range q Hq) as [H52 H53].
  revert Hr. unfold round53 at 1 3 4.
  set (e := (ilog2 q - 52)%Z) in *. set (m := rne (q / 2 ^ e)) in *.
  intros Hr. pose proof (pow2_pos e) as He.
  assert (Hm52 : 2 ^ 52 <= inject_Z m).
  { pose proof H52 as Hz. rewrite Zle_Qle in Hz. exact Hz. }
  destruct (Z.eq_dec m (2 ^ 53)%Z) as [E53 | Hne].
  - assert (Er : inject_Z m * 2 ^ e == 2 ^ (53 + e)).
    { rewrite pow2_shift, E53, Zpower_Qpower by lia. reflexivity. }
    assert (EL : ilog2 (inject_Z m * 2 ^ e) = (53 + e)%Z).
    { apply ilog2_unique; [exact Hr | rewrite Er; lra |].
      rewrite Er, pow2_succ. pose proof (pow2_pos (53 + e)). lra. }
    unfold round53. rewrite EL.
    replace (53 + e - 52)%Z with (1 + e)%Z by ring.
    assert (Es : inject_Z m * 2 ^ e / 2 ^ (1 + e) == inject_Z (2 ^ 52)).
    { rewrite Er. rewrite !pow2_shift. rewrite Zpower_Qpower by lia.
      pose proof (pow2_pos e).
      change (2 ^ 53) with (2 * 2 ^ 52). change (2 ^ 1) with 2.
      change (inject_Z 2) with 2. field. lra. }
    rewrite (rne_comp _ _ Es), rne_Z, Er, !pow2_shift.
    rewrite Zpower_Qpower by lia.
    change (2 ^ 53) with (2 * 2 ^ 52). change (2 ^ 1) with 2.
    change (inject_Z 2) with 2. ring.
  - assert (Hm53 : inject_Z m + 1 <= 2 ^ 53).
    { assert (Hz : (m + 1 <= 2 ^ 53)%Z) by lia.
      rewrite Zle_Qle, inject_Z_plus in Hz. exact Hz. }
    assert (EL : ilog2 (inject_Z m * 2 ^ e) = (52 + e)%Z).
    { apply ilog2_unique; [exact Hr | |].
      - rewrite pow2_shift. apply Qmult_le_compat_r; lra.
      - replace (52 + e + 1)%Z with (53 + e)%Z by ring.
        rewrite pow2_shift.
        apply Qlt_le_trans with ((inject_Z m + 1) * 2 ^ e); [lra|].
        apply Qmult_le_compat_r; lra. }
    unfold round53. rewrite EL.
    replace (52 + e - 52)%Z with e by ring.
    assert (Es : inject_Z m * 2 ^ e / 2 ^ e == inject_Z m) by (field; lra).
    rewrite (rne_comp _ _ Es), rne_Z. reflexivity.
Qed.

Lemma binary64_neg (q : Q) : q < 0 -> binary64 q == - round53 (- q).
Proof.
  intros Hq. rewrite binary64_eq.
  assert (E : (q ?= 0) = Lt) by (apply (proj1 (Qlt_alt _ _)); exact Hq).
  rewrite E. reflexivity.
Qed.

Lemma binary64_comp (x y : Q) : x == y -> binary64 x = binary64 y.
Proof.
  intros E. unfold binary64. apply Qred_complete.
  assert (Ec : (x ?= 0) = (y ?= 0)) by (rewrite E; reflexivity).
  rewrite <- Ec. destruct (x ?= 0) eqn:Ex.
  - reflexivity.
  - apply (proj2 (Qlt_alt _ _)) in Ex.
    assert (En : round53 (- x) == round53 (- y)).
    { apply round53_comp; [lra | rewrite E; reflexivity]. }
    rewrite En. reflexivity.
  - apply (proj2 (Qgt_alt _ _)) in Ex. apply round53_comp; assumption.
Qed.

Lemma binary64_idem (q : Q) : binary64 (binary64 q) == binary64 q.
Proof.
  destruct (Q_dec q 0) as [[Hneg | Hpos] | Hz].
  - pose proof (binary64_neg q Hneg) as E.
    assert (Hn : 0 < - q) by lra.
    pose proof (round53_pos (- q) Hn) as Hr.
    rewrite (binary64_comp _ _ E).
    rewrite (binary64_neg (- round53 (- q))) by lra.
    rewrite E.
    assert (E2 : round53 (- - round53 (- q)) == round53 (round53 (- q))).
    { apply round53_comp; [lra | ring]. }
    rewrite E2, (round53_idem (- q) Hn). reflexivity.
  - pose proof (binary64_pos q Hpos) as E.
    pose proof (round53_pos q Hpos) as Hr.
    rewrite (binary64_comp _ _ E).
    rewrite (binary64_pos (round53 q) Hr), E.
    apply round53_idem. exact Hpos.
  - pose proof (binary64_0 q Hz) as E.
    rewrite (binary64_comp _ _ E). rewrite E. reflexivity.
Qed.

(** What the sum of two doubles is. *)
Lemma fadd_representable (x y : Q) : representable (fadd x y).
Proof. apply binary64_idem. Qed.

Lemma fadd_exact (x y : Q) : representable (x + y) -> fadd x y == x + y.
Proof. intros H. exact H. Qed.

Lemma fadd_ge (x y : Q) :
  representable x -> 0 <= x -> 0 <= y -> x <= fadd x y.
Proof.
  intros Hx H0 Hy. unfold fadd, representable in *.
  apply Qle_trans with (binary64 x); [rewrite Hx; apply Qle_refl|].
  apply binary64_mono; lra.
Qed.

Lemma fadd_error (x y : Q) :
  0 <= x + y ->
  (x + y) - (x + y) / 2 ^ 53 <= fadd x y /\
  fadd x y <= (x + y) + (x + y) / 2 ^ 53.
Proof. apply binary64_error. Qed.

Lemma binary64_nonneg (q : Q) : 0 <= q -> 0 <= binary64 q.
Proof.
  intros Hq. rewrite <- (binary64_0 0) by reflexivity.
  apply binary64_mono; [lra | exact Hq].
Qed.

End Rounding.

(** *** Sequencing *)

Lemma after_bind {A B : Type} (m : M A) (k : A -> M B) (h : Helper) :
  after (bind m k) h = after (k (result m h)) (after m h).
Proof.
  unfold after, result, bind.
  destruct (m h) as [[a h1] e1]. cbn.
  destruct (k a h1) as [[b h2] e2]. reflexivity.
Qed.

Lemma after_run_cons (i : Input) (trace : list Input) (h : Helper) :
  after (run (i :: trace)) h = after (run trace) (after (step i) h).
Proof. cbn [run]. apply after_bind. Qed.

(** *** The three ways through [processAudioChunks] after the decode *)

(** The time line is anchored and ahead of the clock. *)
Lemma resume_on_time (h : Helper) (duration : Q) :
  Qeq_bool (nextStartTime h) 0 = false ->
  Qltb (nextStartTime h) (currentTime h) = false ->
  processAudioChunks_resume duration h
  = (true,
     set_nextStartTime (nextStartTime h + duration)%Q h,
     [ SourceConnect (outputNode h);
       SourceStart (outputNode h) duration (nextStartTime h) ]).
Proof.
  intros Hnz Hle. unfold_method. rewrite Hnz. cbn. rewrite Hle. reflexivity.
Qed.

(** The time line is anchored and the clock has passed it. *)
Lemma resume_behind (h : Helper) (duration : Q) :
  Qeq_bool (nextStartTime h) 0 = false ->
  Qltb (nextStartTime h) (currentTime h) = true ->
  processAudioChunks_resume duration h
  = (false,
     set_nextStartTime 0 (set_playbackState loading h),
     [ SourceConnect (outputNode h);
       Dispatch (PlaybackStateChanged loading) ]).
Proof.
  intros Hnz Hlt. unfold_method. rewrite Hnz. cbn. rewrite Hlt. reflexivity.
Qed.

(** The time line is not anchored. *)
Lemma resume_unanchored (h : Helper) (duration : Q) :
  Qeq_bool (nextStartTime h) 0 = true ->
  (0 <= bufferTime h)%Q ->
  processAudioChunks_resume duration h
  = (true,
     set_nextStartTime (currentTime h + bufferTime h + duration)%Q
       (set_timers (timers h ++ [(bufferTime h * 1000)%Q]) h),
     [ SourceConnect (outputNode h);
       SetTimeout (bufferTime h * 1000)%Q;
       SourceStart (outputNode h) duration (currentTime h + bufferTime h)%Q ]).
Proof.
  intros Hz Hbuf. unfold_method. rewrite Hz. cbn.
  assert (Hle : Qltb (currentTime h + bufferTime h) (currentTime h) = false)
    by (apply Qltb_false; lra).
  rewrite Hle. reflexivity.
Qed.

(** A fragment is let through to the decoder in every state but [paused]
    and [stopped]. *)
Lemma begin_accepts (h : Helper) (c : AudioChunk) (cs : list AudioChunk) :
  playbackState h = playing \/ playbackState h = loading ->
  processAudioChunks_begin (c :: cs) h = (Decoding c, h, []).
Proof.
  intros Hst. unfold_method. destruct Hst as [-> | ->]; reflexivity.
Qed.

(** *** The ways through [processAudioChunks] with the sums rounded *)

Lemma resume64_on_time (h : Helper) (duration : Q) :
  Qeq_bool (nextStartTime h) 0 = false ->
  Qltb (nextStartTime h) (currentTime h) = false ->
  processAudioChunks_resume64 duration h
  = (true,
     set_nextStartTime (fadd (nextStartTime h) duration) h,
     [ SourceConnect (outputNode h);
       SourceStart (outputNode h) duration (nextStartTime h) ]).
Proof.
  intros Hnz Hle. unfold_method. rewrite Hnz. cbn. rewrite Hle. reflexivity.
Qed.

Lemma resume64_behind (h : Helper) (duration : Q) :
  Qeq_bool (nextStartTime h) 0 = false ->
  Qltb (nextStartTime h) (currentTime h) = true ->
  processAudioChunks_resume64 duration h
  = (false,
     set_nextStartTime 0 (set_playbackState loading h),
     [ SourceConnect (outputNode h);
       Dispatch (PlaybackStateChanged loading) ]).
Proof.
  intros Hnz Hlt. unfold_method. rewrite Hnz. cbn. rewrite Hlt. reflexivity.
Qed.

(** Where the two readings of the scheduler meet: on an anchored time
    line that is not behind the clock both start the buffer at the same
    time, and they store the same [nextStartTime] whenever the sum is a
    double. *)
Lemma resume64_agrees (h : Helper) (duration : Q) :
  Qeq_bool (nextStartTime h) 0 = false ->
  Qltb (nextStartTime h) (currentTime h) = false ->
  representable (nextStartTime h + duration)%Q ->
  effects (processAudioChunks_resume64 duration) h
  = effects (processAudioChunks_resume duration) h /\
  (nextStartTime (after (processAudioChunks_resume64 duration) h)
   == nextStartTime (after (processAudioChunks_resume duration) h))%Q.
Proof.
  intros Hnz Hle Hrep. unfold after, effects.
  rewrite resume64_on_time, resume_on_time by assumption. cbn.
  split; [reflexivity | exact Hrep].
Qed.

(** *** Scheduling *)




(** C2: when a fragment has been decoded and the anchored schedule lies
    behind the device clock, the state is forced to [loading],
    [nextStartTime] is reset to 0 and the buffer is never started.  The
    fragment after it is accepted and anchors the timeline again: it
    starts at the device time of its own processing plus [bufferTime]. *)
Theorem processAudioChunks_underrun (h : Helper) (duration : Q) :
  ~ (nextStartTime h == 0)%Q ->
  (nextStartTime h < currentTime h)%Q ->
  (0 <= bufferTime h)%Q ->
  let h' := after (processAudioChunks_resume duration) h in
  result (processAudioChunks_resume duration) h = false /\
  effects (processAudioChunks_resume duration) h
    = [SourceConnect (outputNode h); Dispatch (PlaybackStateChanged loading)] /\
  playbackState h' = loading /\
  nextStartTime h' = 0%Q /\
  forall (dt : Q) (c : AudioChunk) (cs : list AudioChunk) (duration2 : Q),
    let h1 := advance dt h' in
    let h2 := after (processAudioChunks_resume duration2) h1 in
    processAudioChunks_begin (c :: cs) h1 = (Decoding c, h1, []) /\
    starts (effects (processAudioChunks_resume duration2) h1)
      = [((currentTime h1 + bufferTime h)%Q, duration2)] /\
    SetTimeout (bufferTime h * 1000)%Q
      ∈ effects (processAudioChunks_resume duration2) h1 /\
    nextStartTime h2 = (currentTime h1 + bufferTime h + duration2)%Q.
Proof.
  intros Hnz Hlt Hbuf h'.
  apply Qeq_bool_false in Hnz. apply Qltb_true in Hlt.
  subst h'. unfold after, effects, result.
  rewrite (resume_behind h duration Hnz Hlt). cbn.
  repeat split.
  all: rewrite resume_unanchored; cbn; try reflexivity; try assumption.
  set_solver.
Qed.

(** The schedule stands at 3 while the clock shows 5. *)
Lemma processAudioChunks_underrun_witness :
  let h := streaming playing 3 5 in
  let h' := after (processAudioChunks_resume 1) h in
  playbackState h' = loading /\
  nextStartTime h' = 0%Q /\
  starts (effects (processAudioChunks_resume 1) h) = [] /\
  starts (effects (processAudioChunks_resume 1) (advance 1 h'))
    = [((5 + 1 + 2)%Q, 1%Q)].
Proof.
  intros h h'.
  destruct (processAudioChunks_underrun h 1) as (_ & He & Hs & Hn & Hnext).
  - vm_compute. discriminate.
  - reflexivity.
  - vm_compute. discriminate.
  - destruct (Hnext 1%Q (mkAudioChunk "AAAA") [] 1%Q) as (_ & Hstart & _).
    split; [exact Hs|]. split; [exact Hn|].
    split; [rewrite He; reflexivity | exact Hstart].
Defined.

(** *** The set of filtered prompts *)

Lemma step_filteredPrompts (i : Input) (h : Helper) :
  filteredPrompts h ⊆ filteredPrompts (after (step i) h).
Proof.
  destruct i; unfold step; unfold_method; method_cases; set_solver.
Qed.

(** C3, as stated, fails: the text filtered during the first connection is
    still in the set when the second connection has been opened, after
    [stop()] as well as after a transport failure. *)
Lemma filteredPrompts_kept_across_reconnect :
  let h1 := after (run reconnect_after_stop) new_LiveMusicHelper in
  let h2 := after (run reconnect_after_close) new_LiveMusicHelper in
  (sessionId h1 = Some 2%nat /\ filteredPrompts h1 <> ∅
   /\ "banned" ∈ filteredPrompts h1) /\
  (sessionId h2 = Some 2%nat /\ filteredPrompts h2 <> ∅
   /\ "banned" ∈ filteredPrompts h2).
Proof.
  assert (E1 : filteredPrompts
                 (after (run reconnect_after_stop) new_LiveMusicHelper)
               = ∅ ∪ {[ "banned" ]}) by reflexivity.
  assert (E2 : filteredPrompts
                 (after (run reconnect_after_close) new_LiveMusicHelper)
               = ∅ ∪ {[ "banned" ]}) by reflexivity.
  cbv zeta. rewrite E1, E2.
  repeat split; try reflexivity; set_solver.
Qed.

(** C3, amended: nothing ever removes an entry from the set of filtered
    prompts.  [stop()], the disconnect handler and both segments of
    [connect()] leave it as it is, and over any sequence of events it only
    grows: it lives as long as the helper, not as long as a connection. *)
Theorem filteredPrompts_never_reset (trace : list Input) (h : Helper) :
  filteredPrompts h ⊆ filteredPrompts (after (run trace) h) /\
  filteredPrompts (after stop h) = filteredPrompts h /\
  filteredPrompts (after handleDisconnect h) = filteredPrompts h /\
  filteredPrompts (after onerror h) = filteredPrompts h /\
  filteredPrompts (after onclose h) = filteredPrompts h /\
  filteredPrompts (after connect_begin h) = filteredPrompts h /\
  (forall sid, filteredPrompts (after (connect_resume sid) h)
               = filteredPrompts h).
Proof.
  split; [|repeat split; unfold_method; method_cases; reflexivity].
  revert h. induction trace as [|i trace IH]; intros h.
  - reflexivity.
  - rewrite after_run_cons.
    transitivity (filteredPrompts (after (step i) h)).
    + apply step_filteredPrompts.
    + apply IH.
Qed.

(** *** Transport failure *)

(** C4: [onerror] and [onclose] both run [handleDisconnect] and then
    dispatch an error event.  The handler forces the state to [stopped],
    sets the gain to 0 now and ramps it to 1 at 0.1 s from now, resets
    [nextStartTime] to 0 and clears [session] and [sessionPromise]; no
    command is sent on the session. *)
Theorem disconnect_handling (h : Helper) :
  let ramp :=
    [ Dispatch (PlaybackStateChanged stopped);
      GainSetValueAtTime (outputNode h) 0 (currentTime h);
      GainLinearRampToValueAtTime (outputNode h) 1
        (currentTime h + (1 # 10))%Q ] in
  effects handleDisconnect h = ramp /\
  (after onerror h = after handleDisconnect h /\
   effects onerror h
     = effects handleDisconnect h
       ++ [Dispatch (ErrorEvent "Connection error, please restart audio.")]) /\
  (after onclose h = after handleDisconnect h /\
   effects onclose h
     = effects handleDisconnect h
       ++ [Dispatch (ErrorEvent "Connection closed, please restart audio.")]) /\
  (let h' := after handleDisconnect h in
   playbackState h' = stopped /\ nextStartTime h' = 0%Q /\
   session h' = None /\ sessionPromise h' = None /\
   connectionError h' = true) /\
  sends (effects onerror h) = [] /\
  sends (effects onclose h) = [] /\
  length (errors (effects onerror h)) = 1%nat /\
  length (errors (effects onclose h)) = 1%nat.
Proof.
  unfold_method. repeat split.
Qed.

(** *** Prompt channel *)

(** C5, as stated, fails: with an open session the guard sends a command
    to the remote session, the [pause] that [this.pause()] issues. *)
Lemma empty_prompts_send_pause :
  let h := connected in
  session h = Some 7%nat /\
  activePrompts (set_prompts muted_prompt h) = [] /\
  sends (effects (setWeightedPrompts_begin muted_prompt) h)
    = [(7%nat, CmdPause)] /\
  sends (effects (setWeightedPrompts_begin muted_prompt) h) <> [].
Proof.
  repeat split. discriminate.
Qed.

(** C5, amended: an effective [setWeightedPrompts] whose snapshot has no
    active prompt dispatches exactly one error event, ends in state
    [paused] whatever the state was, and sends no prompts; the one command
    that may go to the remote session is the [pause] of [this.pause()],
    sent exactly when a session exists. *)
Theorem empty_prompts_guard (h : Helper) (ps : list (string * Prompt)) :
  activePrompts (set_prompts ps h) = [] ->
  let fx := effects (setWeightedPrompts_begin ps) h in
  result (setWeightedPrompts_begin ps) h = NoActivePrompt /\
  errors fx = ["There needs to be one active prompt to play."] /\
  playbackState (after (setWeightedPrompts_begin ps) h) = paused /\
  sends fx = match session h with
             | Some s => [(s, CmdPause)]
             | None => []
             end /\
  (forall s weighted, (s, CmdSetWeightedPrompts weighted) ∉ sends fx).
Proof.
  intros Hnone. unfold activePrompts in Hnone. cbn in Hnone.
  unfold_method. unfold activePrompts. cbn. rewrite Hnone. cbn.
  destruct (session h) as [s0|]; cbn; repeat split; intros s weighted Hin.
  - apply list_elem_of_singleton in Hin. discriminate Hin.
  - apply not_elem_of_nil in Hin. exact Hin.
Qed.

(** The guard at work on the helper with an open session. *)
Lemma empty_prompts_guard_witness :
  let h := connected in
  let fx := effects (setWeightedPrompts_begin muted_prompt) h in
  activePrompts (set_prompts muted_prompt h) = [] /\
  errors fx = ["There needs to be one active prompt to play."] /\
  playbackState (after (setWeightedPrompts_begin muted_prompt) h) = paused.
Proof.
  intros h fx.
  assert (Hnone : activePrompts (set_prompts muted_prompt h) = [])
    by reflexivity.
  destruct (empty_prompts_guard h muted_prompt Hnone) as (_ & He & Hp & _).
  repeat split; assumption.
Defined.

(** *** Acquiring the session *)



(** *** The schedule and the clock *)

Lemma step_clocks_ok (i : Input) (h : Helper) :
  valid_input i -> clocks_ok h -> clocks_ok (after (step i) h).
Proof.
  unfold clocks_ok. intros Hi (Hnow & Hbuf & Hnext).
  destruct i; cbn in Hi; unfold step; unfold_method; method_cases;
    repeat split; lra.
Qed.

Lemma run_clocks_ok (trace : list Input) (h : Helper) :
  Forall valid_input trace -> clocks_ok h -> clocks_ok (after (run trace) h).
Proof.
  intros Hv. revert h.
  induction Hv as [|i trace Hi _ IH]; intros h Hok.
  - exact Hok.
  - rewrite after_run_cons. apply IH. apply step_clocks_ok; assumption.
Qed.

Lemma new_clocks_ok : clocks_ok new_LiveMusicHelper.
Proof. unfold clocks_ok. cbn. repeat split; lra. Qed.

Lemma stalled_stream_valid : Forall valid_input stalled_stream.
Proof.
  unfold stalled_stream.
  repeat (apply Forall_cons; split; [cbn; try exact I; lra|]).
  apply Forall_nil_2.
Qed.

(** C7, as stated, fails: at the end of the stalled stream the state is
    [playing] while [nextStartTime] is 3, neither 0 nor at or after the
    device time 4. *)
Lemma playing_behind_the_clock :
  let h := after (run stalled_stream) new_LiveMusicHelper in
  Forall valid_input stalled_stream /\
  playbackState h = playing /\
  ~ (nextStartTime h == 0)%Q /\
  ~ (currentTime h <= nextStartTime h)%Q.
Proof.
  split; [apply stalled_stream_valid|].
  split; [reflexivity|].
  split; vm_compute; intros H; [discriminate H | apply H; reflexivity].
Qed.

(** C7, amended: over every sequence of events the environment can
    deliver, [nextStartTime] is never negative; and at the end of the
    processing of a fragment, whatever the state, [nextStartTime] is 0 or
    at or after the device time.  Between two fragments nothing watches the
    clock: it may pass a non-zero [nextStartTime] while the state stays
    [playing], until the next fragment is processed. *)
Theorem nextStartTime_bounds (trace : list Input) :
  Forall valid_input trace ->
  let h := after (run trace) new_LiveMusicHelper in
  (0 <= nextStartTime h)%Q /\
  forall duration : Q,
    (0 < duration)%Q ->
    let h' := after (processAudioChunks_resume duration) h in
    (nextStartTime h' == 0)%Q \/ (currentTime h' <= nextStartTime h')%Q.
Proof.
  intros Hv h.
  destruct (run_clocks_ok trace new_LiveMusicHelper Hv new_clocks_ok)
    as (Hnow & Hbuf & Hnext).
  fold h in Hnow, Hbuf, Hnext.
  split; [exact Hnext|].
  intros duration Hd h'. subst h'. unfold after.
  destruct (Qeq_bool (nextStartTime h) 0) eqn:Hz.
  - rewrite resume_unanchored by assumption. cbn. right. lra.
  - destruct (Qltb (nextStartTime h) (currentTime h)) eqn:Hlt.
    + rewrite resume_behind by assumption. cbn. left. reflexivity.
    + rewrite resume_on_time by assumption. cbn. right.
      apply Qltb_false in Hlt. lra.
Qed.

(** The bound at the end of the stalled stream. *)
Lemma nextStartTime_bounds_witness :
  Forall valid_input stalled_stream /\
  (0 <= nextStartTime (after (run stalled_stream) new_LiveMusicHelper))%Q.
Proof.
  split; [apply stalled_stream_valid|].
  apply (nextStartTime_bounds stalled_stream stalled_stream_valid).
Defined.

(** *** The toggle *)

(** C8: [playPause()] does what [pause()] does when the state is
    [playing], what [play()] does when it is [paused] or [stopped], and
    what [stop()] does when it is [loading]. *)
Theorem playPause_dispatch (h : Helper) :
  (after playPause h, effects playPause h, result playPause h)
  = match playbackState h with
    | playing => (after pause h, effects pause h, InvokedPause)
    | paused | stopped =>
        (after play_begin h, effects play_begin h,
         InvokedPlay (result play_begin h))
    | loading => (after stop h, effects stop h, InvokedStop)
    end /\
  playbackState (after playPause h)
  = match playbackState h with
    | playing => paused
    | paused | stopped => loading
    | loading => stopped
    end.
Proof.
  split.
  - unfold after, effects, result, playPause, bind, this.
    destruct (playbackState h).
    + destruct (play_begin h) as [[p h1] e1]. cbn.
      rewrite app_nil_r. reflexivity.
    + destruct (pause h) as [[u h1] e1]. cbn.
      rewrite app_nil_r. reflexivity.
    + destruct (stop h) as [[u h1] e1]. cbn.
      rewrite app_nil_r. reflexivity.
    + destruct (play_begin h) as [[p h1] e1]. cbn.
      rewrite app_nil_r. reflexivity.
  - unfold_method. method_cases; reflexivity.
Qed.

(** *** The timer of the anchor *)

Lemma timers_kept (h : Helper) :
  timers (after pause h) = timers h /\
  timers (after stop h) = timers h /\
  timers (after handleDisconnect h) = timers h /\
  timers (after onerror h) = timers h /\
  timers (after onclose h) = timers h.
Proof.
  repeat split; unfold_method; method_cases; reflexivity.
Qed.

Lemma timer_fired_playing (h : Helper) :
  timers h <> [] ->
  playbackState (after timer_fired h) = playing /\
  effects timer_fired h = [Dispatch (PlaybackStateChanged playing)].
Proof.
  intros Hne. unfold_method. destruct (timers h); [contradiction|].
  split; reflexivity.
Qed.

(** C9: a fragment that finds the timeline unanchored arms a timer of
    [bufferTime * 1000] milliseconds.  Its callback sets the state to
    [playing] without looking at the state; [pause()], [stop()] and the
    disconnect handler leave the timer pending, so that when it fires
    after one of them the state becomes [playing] all the same. *)
Theorem anchor_timer_unguarded (h : Helper) (duration : Q) :
  (nextStartTime h == 0)%Q ->
  let h1 := after (processAudioChunks_resume duration) h in
  SetTimeout (bufferTime h * 1000)%Q
    ∈ effects (processAudioChunks_resume duration) h /\
  timers h1 = timers h ++ [(bufferTime h * 1000)%Q] /\
  (forall h0 : Helper,
     timers h0 <> [] ->
     playbackState (after timer_fired h0) = playing /\
     effects timer_fired h0 = [Dispatch (PlaybackStateChanged playing)]) /\
  (playbackState (after pause h1) = paused /\
   playbackState (after timer_fired (after pause h1)) = playing) /\
  (playbackState (after stop h1) = stopped /\
   playbackState (after timer_fired (after stop h1)) = playing) /\
  (playbackState (after onerror h1) = stopped /\
   playbackState (after timer_fired (after onerror h1)) = playing) /\
  (playbackState (after onclose h1) = stopped /\
   playbackState (after timer_fired (after onclose h1)) = playing).
Proof.
  intros Hz h1. apply Qeq_bool_iff in Hz.
  assert (Ht : timers h1 = timers h ++ [(bufferTime h * 1000)%Q]).
  { subst h1. unfold_method. rewrite Hz. cbn. method_cases; reflexivity. }
  assert (Hne : timers h1 <> []).
  { rewrite Ht. intros E. apply app_eq_nil in E. destruct E. discriminate. }
  destruct (timers_kept h1) as (Hp & Hs & _ & He & Hc).
  split.
  { unfold_method. rewrite Hz. cbn. method_cases; set_solver. }
  split; [exact Ht|].
  split; [apply timer_fired_playing|].
  repeat split.
  all: try (apply timer_fired_playing; congruence).
  all: unfold_method; method_cases; reflexivity.
Qed.

(** The first fragment after [play()], then [stop()], then the timer. *)
Lemma anchor_timer_unguarded_witness :
  let h := streaming loading 0 0 in
  let h1 := after (processAudioChunks_resume 1) h in
  (nextStartTime h == 0)%Q /\
  timers h1 = [(2 * 1000)%Q] /\
  playbackState (after timer_fired (after stop h1)) = playing.
Proof.
  intros h h1.
  assert (Hz : (nextStartTime h == 0)%Q) by reflexivity.
  destruct (anchor_timer_unguarded h 1 Hz) as (_ & Ht & _ & _ & Hs & _).
  split; [exact Hz|]. split; [exact Ht|]. apply Hs.
Defined.

(** *** The stored snapshot *)

Lemma prompts_kept (h : Helper) :
  prompts (after pause h) = prompts h /\
  prompts (after play_begin h) = prompts h /\
  (forall message,
     prompts (after (setWeightedPrompts_catch message) h) = prompts h).
Proof.
  repeat split; intros; unfold_method; method_cases; reflexivity.
Qed.

Lemma setWeightedPrompts_begin_prompts (h : Helper)
  (ps : list (string * Prompt)) :
  prompts (after (setWeightedPrompts_begin ps) h) = ps.
Proof.
  unfold_method. method_cases; reflexivity.
Qed.

(** No segment of the helper assigns [this.prompts] but the function
    given to [throttle]; [play()] hands it the stored value itself. *)
Lemma step_prompts (i : Input) (h : Helper) :
  effective_call i = false -> prompts (after (step i) h) = prompts h.
Proof.
  destruct i; cbn [effective_call]; intros E; try subst through;
    unfold step; unfold_method; method_cases; reflexivity.
Qed.

(** What the flush of [play()] does, by the prompts active when it
    runs. *)
Lemma play_session_flush (h : Helper) (s : SessionRef) :
  (activePrompts h <> [] ->
   play_session s true h
   = (Sending s, set_prompts (prompts h) (set_session (Some s) h),
      [Send s (CmdSetWeightedPrompts (activePrompts h))])) /\
  (activePrompts h = [] ->
   result (play_session s true) h = NoActivePrompt /\
   errors (effects (play_session s true) h)
   = ["There needs to be one active prompt to play."] /\
   sends (effects (play_session s true) h) = [(s, CmdPause)] /\
   playbackState (after (play_session s true) h) = paused /\
   session (after (play_session s true) h) = Some s) /\
  play_session s false h = (Throttled, set_session (Some s) h, []).
Proof.
  unfold activePrompts. split; [|split].
  - intros Ha. unfold_method. unfold activePrompts. cbn.
    destruct (List.filter _ _) as [|p l]; [contradiction|]. reflexivity.
  - intros Ha. unfold_method. unfold activePrompts. cbn. rewrite Ha. cbn.
    repeat split.
  - reflexivity.
Qed.

Lemma in_world_fields {A : Type} (m : M A) (w : Shared.World) :
  Shared.helperPrompts (snd (fst (Shared.in_world m w)))
  = Shared.helperPrompts w /\
  Shared.store (snd (fst (Shared.in_world m w))) = Shared.store w.
Proof.
  unfold Shared.in_world. destruct (m _) as [[a h] e]. split; reflexivity.
Qed.

Lemma in_world_step_fields {A : Type} (m : M A) (w : Shared.World) :
  let r := let '(_, w1, e) := Shared.in_world m w in (w1, e) in
  Shared.helperPrompts (fst r) = Shared.helperPrompts w /\
  Shared.store (fst r) = Shared.store w.
Proof.
  unfold Shared.in_world. destruct (m _) as [[a h] e]. split; reflexivity.
Qed.

(** C10, as stated, fails when the snapshot is read as the prompts that
    were passed.  The grid holds one prompt; a change sets its weight to
    1, and the map of the event [prompts-changed] is passed to
    [setWeightedPrompts]: the call is effective and the map is stored.  A
    second change sets the weight to 0, writing to the object the stored
    map refers to, and the call that forwards the map of its event is
    held back by the rate limiter.  The helper still holds the map it was
    given, but the [play()] that follows does not flush the prompt that
    was passed: it finds no active prompt, shows the error and pauses. *)
Lemma play_flushes_what_the_map_holds_then :
  let w0 := Shared.new_World muted_prompt in
  let changed := Shared.handlePromptChanged "p1" "Bossa Nova" 1 0 w0 in
  let call := Shared.setWeightedPrompts true 2%nat (fst changed) in
  let w1 := snd (fst call) in
  let w2 := fst (Shared.world_run
                   [ Shared.PromptChanged "p1" "Bossa Nova" 0 0;
                     Shared.CallSetWeightedPromptsOf false 3%nat;
                     Shared.Segment CallPlay;
                     Shared.Segment (ClientReady 1) ] w1) in
  let flush := Shared.in_world (play_session 7%nat true) w2 in
  snd changed = Some 2%nat /\
  Shared.contents (Shared.store (fst changed)) 2%nat = one_prompt /\
  List.filter (isActive (filteredPrompts (Shared.helper w0)))
    (map snd one_prompt) = map snd one_prompt /\
  (fst (fst call) = NoSession /\ snd call = []) /\
  Shared.helperPrompts w1 = 2%nat /\
  snd (Shared.handlePromptChanged "p1" "Bossa Nova" 0 0 w1) = Some 3%nat /\
  Shared.helperPrompts w2 = 2%nat /\
  Shared.gridPrompts w2 = 3%nat /\
  Shared.contents (Shared.store w2) 2%nat = muted_prompt /\
  fst (fst flush) = NoActivePrompt /\
  errors (snd flush) = ["There needs to be one active prompt to play."] /\
  sends (snd flush) = [(7%nat, CmdPause)] /\
  playbackState (Shared.helper (snd (fst flush))) = paused.
Proof.
  cbv zeta. repeat split; vm_compute; reflexivity.
Qed.

(** C10, amended: an effective [setWeightedPrompts] stores its argument
    before it checks or sends anything, and what it checks and sends does
    not depend on what was stored before.  Nothing rolls the assignment
    back: on every way out, the guard for an empty set of active prompts
    and the [catch] of a failed send included, and through every other
    segment of the helper, the stored value is the argument until the
    next effective call.  What is stored is the map of the caller itself:
    the helper makes no copy and never writes to the map or its prompts.
    A [play()] that follows passes the stored map to [setWeightedPrompts];
    when the rate limiter lets that call through, the same map is stored
    again and the prompts it then holds that are then active are sent, or
    the error is shown and the helper pauses when there is none; when the
    rate limiter holds the call back, nothing is flushed. *)
Theorem setWeightedPrompts_stores_the_map (h : Helper)
  (ps : list (string * Prompt)) (failure : option string)
  (w : Shared.World) (m : Shared.MapRef) :
  (prompts (after (setWeightedPrompts_begin ps) h) = ps /\
   prompts (after (setWeightedPrompts_run ps failure) h) = ps /\
   (forall ps0 : list (string * Prompt),
      setWeightedPrompts_begin ps (set_prompts ps0 h)
      = setWeightedPrompts_begin ps h) /\
   (forall (i : Input) (h0 : Helper),
      effective_call i = false ->
      prompts (after (step i) h0) = prompts h0)) /\
  (let call := Shared.setWeightedPrompts true m w in
   let passed := Shared.contents (Shared.store w) m in
   Shared.helperPrompts (snd (fst call)) = m /\
   Shared.store (snd (fst call)) = Shared.store w /\
   fst (fst call) = result (setWeightedPrompts_begin passed) (Shared.helper w) /\
   snd call = effects (setWeightedPrompts_begin passed) (Shared.helper w)) /\
  (forall (i : Input) (w0 : Shared.World),
     effective_call i = false ->
     prompts (Shared.helper (snd (fst (Shared.in_world (step i) w0))))
     = Shared.contents (Shared.store w0) (Shared.helperPrompts w0)) /\
  (forall (i : Shared.WorldInput) (w0 : Shared.World),
     Shared.effective i = false ->
     Shared.helperPrompts (fst (Shared.world_step i w0))
     = Shared.helperPrompts w0) /\
  (forall (i : Shared.WorldInput) (w0 : Shared.World),
     Shared.reads_only i = true ->
     Shared.store (fst (Shared.world_step i w0)) = Shared.store w0) /\
  (forall (w2 : Shared.World) (s : SessionRef),
     Shared.helperPrompts w2 = m ->
     let held := Shared.contents (Shared.store w2) m in
     let active :=
       List.filter (isActive (filteredPrompts (Shared.helper w2)))
         (map snd held) in
     let flush := Shared.in_world (play_session s true) w2 in
     Shared.helperPrompts (snd (fst flush)) = m /\
     Shared.store (snd (fst flush)) = Shared.store w2 /\
     (active <> [] ->
      fst (fst flush) = Sending s /\
      snd flush = [Send s (CmdSetWeightedPrompts active)]) /\
     (active = [] ->
      fst (fst flush) = NoActivePrompt /\
      errors (snd flush) = ["There needs to be one active prompt to play."] /\
      sends (snd flush) = [(s, CmdPause)] /\
      playbackState (Shared.helper (snd (fst flush))) = paused) /\
     fst (fst (Shared.in_world (play_session s false) w2)) = Throttled /\
     snd (Shared.in_world (play_session s false) w2) = []).
Proof.
  split; [|split; [|split; [|split; [|split]]]].
  - split; [apply setWeightedPrompts_begin_prompts|].
    split.
    { unfold setWeightedPrompts_run. rewrite after_bind.
      destruct (result (setWeightedPrompts_begin ps) h) eqn:Hr;
        destruct failure as [message|]; cbn;
        try apply setWeightedPrompts_begin_prompts.
      rewrite after_bind. cbn.
      destruct (prompts_kept (after (setWeightedPrompts_begin ps) h))
        as (_ & _ & Hc).
      rewrite Hc. apply setWeightedPrompts_begin_prompts. }
    split; [intros ps0; reflexivity|].
    intros i h0. apply step_prompts.
  - cbv zeta. unfold Shared.setWeightedPrompts.
    destruct (in_world_fields
                (setWeightedPrompts_begin
                   (Shared.contents (Shared.store w) m))
                (Shared.mkWorld (Shared.store w) (Shared.helper w) m
                   (Shared.gridPrompts w))) as [Hm Hst].
    split; [exact Hm|]. split; [exact Hst|].
    unfold Shared.in_world, result, effects.
    cbn [Shared.store Shared.helper Shared.helperPrompts].
    change (setWeightedPrompts_begin (Shared.contents (Shared.store w) m)
              (set_prompts (Shared.contents (Shared.store w) m)
                 (Shared.helper w)))
      with (setWeightedPrompts_begin (Shared.contents (Shared.store w) m)
              (Shared.helper w)).
    destruct (setWeightedPrompts_begin _ _) as [[a h1] e1].
    split; reflexivity.
  - intros i w0 E.
    pose proof (step_prompts i
                  (set_prompts
                     (Shared.contents (Shared.store w0)
                        (Shared.helperPrompts w0)) (Shared.helper w0)) E)
      as Hp.
    unfold after in Hp. unfold Shared.in_world.
    destruct (step i _) as [[a h1] e]. exact Hp.
  - intros i w0 E. destruct i as [i | through m0 | promptId text weight cc].
    + destruct i; cbn [Shared.effective] in E; try subst through;
        cbn [Shared.world_step];
        try (apply (in_world_step_fields (step _) w0)).
      reflexivity.
    + cbn [Shared.effective] in E. subst through. reflexivity.
    + cbn [Shared.world_step]. unfold Shared.handlePromptChanged.
      destruct (Shared.mapGet _ _) as [r|]; [|reflexivity].
      destruct (Shared.promptObjects _ !! r); reflexivity.
  - intros i w0 E. destruct i as [i | through m0 | promptId text weight cc];
      [| |discriminate E].
    + destruct i; try discriminate E; cbn [Shared.world_step];
        apply (in_world_step_fields (step _) w0).
    + cbn [Shared.world_step]. unfold Shared.setWeightedPrompts.
      destruct through; [|reflexivity].
      apply (in_world_step_fields
               (setWeightedPrompts_begin
                  (Shared.contents (Shared.store w0) m0))
               (Shared.mkWorld (Shared.store w0) (Shared.helper w0) m0
                  (Shared.gridPrompts w0))).
  - intros w2 s Hm held active flush.
    destruct (in_world_fields (play_session s true) w2) as [Hk Hst].
    fold flush in Hk, Hst. rewrite Hm in Hk.
    split; [exact Hk|]. split; [exact Hst|].
    set (h2 := set_prompts (Shared.contents (Shared.store w2)
                              (Shared.helperPrompts w2)) (Shared.helper w2)).
    assert (Ha : activePrompts h2 = active).
    { subst h2 active held. rewrite Hm. reflexivity. }
    destruct (play_session_flush h2 s) as (Hsend & Hnone & Hthr).
    rewrite Ha in Hsend, Hnone.
    assert (Ef : flush = let '(a, h3, e) := play_session s true h2 in
                         (a, Shared.mkWorld (Shared.store w2) h3
                               (Shared.helperPrompts w2)
                               (Shared.gridPrompts w2), e))
      by reflexivity.
    split; [|split; [|split]].
    + intros Hne. rewrite Ef, (Hsend Hne). split; reflexivity.
    + intros He. specialize (Hnone He). revert Hnone. rewrite Ef.
      unfold result, effects, after.
      destruct (play_session s true h2) as [[a h3] e]. cbn.
      intros (Hr & Herr & Hs & Hp & _). repeat split; assumption.
    + unfold Shared.in_world. fold h2. rewrite Hthr. reflexivity.
    + unfold Shared.in_world. fold h2. rewrite Hthr. reflexivity.
Qed.

(** ** Further properties of the helper *)

(** *** Messages of the server *)

Lemma onmessage_fields (e : LiveMusicServerMessage) (h : Helper) :
  prompts (after (onmessage e) h) = prompts h /\
  playbackState (after (onmessage e) h) = playbackState h /\
  filteredPrompts (after (onmessage e) h)
  = match filteredPrompt e with
    | Some (t, _) => filteredPrompts h ∪ {[ t ]}
    | None => filteredPrompts h
    end.
Proof.
  destruct e as [sc [[t reason]|] [cs|]]; unfold_method; method_cases;
    repeat split.
Qed.

Lemma isActive_filtered_more (F : gset string) (t : string) (p : Prompt) :
  isActive (F ∪ {[ t ]}) p = negb (String.eqb (text p) t) && isActive F p.
Proof.
  unfold isActive.
  destruct (String.eqb_spec (text p) t) as [-> | Hne]; cbn.
  - rewrite bool_decide_eq_true_2; [reflexivity|].
    apply elem_of_union. right. apply elem_of_singleton. reflexivity.
  - f_equal. f_equal. apply bool_decide_ext.
    rewrite elem_of_union, elem_of_singleton. tauto.
Qed.

Lemma filter_twice {A : Type} (f g : A -> bool) (l : list A) :
  List.filter (fun x => f x && g x) l = List.filter f (List.filter g l).
Proof.
  induction l as [|x l IH]; [reflexivity|]. cbn.
  destruct (g x) eqn:Hg, (f x) eqn:Hf; cbn; rewrite ?Hf, ?IH; reflexivity.
Qed.

(** X1: a message that reports the text [t] as filtered puts [t] into the
    set, announces it, and from then on the active prompts are the former
    active prompts without those of text [t], whatever their weight. *)
Theorem filtered_prompt_excluded (h : Helper) (sc : bool) (t reason : string)
  (chunks : option (list AudioChunk)) :
  let e := mkMessage sc (Some (t, reason)) chunks in
  let h' := after (onmessage e) h in
  t ∈ filteredPrompts h' /\
  Dispatch (FilteredPromptEvent t reason) ∈ effects (onmessage e) h /\
  activePrompts h'
  = List.filter (fun p => negb (String.eqb (text p) t)) (activePrompts h) /\
  (forall p, p ∈ activePrompts h' -> text p <> t).
Proof.
  intros e h'.
  destruct (onmessage_fields e h) as (Hp & _ & Hf). cbn in Hf.
  fold h' in Hp, Hf.
  assert (Ha : activePrompts h'
               = List.filter (fun p => negb (String.eqb (text p) t))
                   (activePrompts h)).
  { unfold activePrompts. rewrite Hp, Hf, <- filter_twice.
    apply List.filter_ext. intros p. apply isActive_filtered_more. }
  split.
  { rewrite Hf. apply elem_of_union. right.
    apply elem_of_singleton. reflexivity. }
  split.
  { subst e. apply list_elem_of_In.
    destruct chunks as [cs|]; unfold_method; method_cases; cbn; tauto. }
  split; [exact Ha|].
  intros p Hin. rewrite Ha in Hin.
  apply list_elem_of_In, List.filter_In in Hin. destruct Hin as [_ Hne].
  apply negb_true_iff in Hne. apply String.eqb_neq in Hne. exact Hne.
Qed.

(** *** Fragments that are not decoded *)

Lemma begin_idle (h : Helper) (cs : list AudioChunk) :
  playbackState h = paused \/ playbackState h = stopped ->
  processAudioChunks_begin cs h = (Dropped, h, []).
Proof.
  intros [Hs | Hs]; unfold_method; rewrite Hs; reflexivity.
Qed.

(** X2: while the state is [paused] or [stopped] a batch of fragments is
    dropped before any decoding: the helper is left as it was and nothing
    happens, also when the batch comes in a message of the server. *)
Theorem fragments_dropped_when_idle (h : Helper) (cs : list AudioChunk) :
  playbackState h = paused \/ playbackState h = stopped ->
  processAudioChunks_begin cs h = (Dropped, h, []) /\
  onmessage (mkMessage false None (Some cs)) h = (Some Dropped, h, []).
Proof.
  intros [Hs | Hs]; unfold_method; rewrite Hs; cbn; split; reflexivity.
Qed.

Lemma fragments_dropped_when_idle_witness :
  playbackState new_LiveMusicHelper = stopped /\
  processAudioChunks_begin [mkAudioChunk "AAAA"] new_LiveMusicHelper
  = (Dropped, new_LiveMusicHelper, []).
Proof.
  split; [reflexivity|].
  apply (fragments_dropped_when_idle new_LiveMusicHelper
           [mkAudioChunk "AAAA"]).
  right. reflexivity.
Defined.

(** X3: in the states [playing] and [loading] only the first fragment of
    a batch goes to the decoder, whatever follows it in the batch; an
    empty batch makes [processAudioChunks] throw before anything has
    changed. *)
Theorem batch_head_only (h : Helper) (c : AudioChunk)
  (cs cs' : list AudioChunk) :
  playbackState h = playing \/ playbackState h = loading ->
  processAudioChunks_begin (c :: cs) h
  = processAudioChunks_begin (c :: cs') h /\
  result (processAudioChunks_begin (c :: cs)) h = Decoding c /\
  processAudioChunks_begin [] h = (Threw, h, []).
Proof.
  intros [Hs | Hs]; unfold_method; rewrite Hs; cbn; repeat split.
Qed.

Lemma batch_head_only_witness :
  let h := streaming loading 0 0 in
  playbackState h = loading /\
  processAudioChunks_begin [] h = (Threw, h, []).
Proof.
  intros h. split; [reflexivity|].
  apply (batch_head_only h (mkAudioChunk "AAAA") [] []).
  right. reflexivity.
Defined.

(** *** The state and its announcements *)

Lemma effects_run_cons (i : Input) (trace : list Input) (h : Helper) :
  effects (run (i :: trace)) h
  = effects (step i) h ++ effects (run trace) (after (step i) h).
Proof.
  change (run (i :: trace)) with (bind (step i) (fun _ => run trace)).
  unfold effects, after, bind.
  destruct (step i h) as [[u h1] e1]. cbn.
  destruct (run trace h1) as [[u' h2] e2]. reflexivity.
Qed.

Lemma last_app_default {A : Type} (l1 l2 : list A) (d : A) :
  List.last (l1 ++ l2) d = List.last l2 (List.last l1 d).
Proof.
  revert d. induction l2 as [|x l2 IH] using rev_ind; intros d.
  - rewrite app_nil_r. reflexivity.
  - rewrite app_assoc, !List.last_last. reflexivity.
Qed.

Lemma step_announced (i : Input) (h : Helper) :
  playbackState (after (step i) h)
  = announced (playbackState h) (effects (step i) h).
Proof.
  destruct i; unfold step; unfold_method; method_cases; reflexivity.
Qed.

(** X4: the state of the helper is always the one of its last
    [playback-state-changed] event.  Over any sequence of commands,
    continuations, messages, failures and timers, a listener that follows
    the events knows the state; when no such event is dispatched the state
    has not changed. *)
Theorem state_always_announced (trace : list Input) (h : Helper) :
  playbackState (after (run trace) h)
  = announced (playbackState h) (effects (run trace) h).
Proof.
  revert h. induction trace as [|i trace IH]; intros h.
  - reflexivity.
  - rewrite after_run_cons, effects_run_cons, IH, step_announced.
    unfold announced, state_events. rewrite omap_app.
    symmetry. apply last_app_default.
Qed.

(** X5: the state [playing] is entered through the timer of the anchor
    and through nothing else.  No command, continuation, message or failure
    announces [playing], and after any of them the state is [playing] only
    if it was before; [play()] in particular never sets it. *)
Theorem only_timer_sets_playing (i : Input) (h : Helper) :
  i <> TimerFired ->
  (playing ∉ state_events (effects (step i) h)) /\
  (playbackState (after (step i) h) = playing -> playbackState h = playing).
Proof.
  intros Hi.
  assert (Hno : playing ∉ state_events (effects (step i) h)).
  { intros Hin. apply list_elem_of_In in Hin. revert Hin.
    destruct i; try contradiction; unfold step; unfold_method; method_cases;
      cbn; intuition discriminate. }
  split; [exact Hno|].
  rewrite step_announced. unfold announced. intros Hlast.
  destruct (state_events (effects (step i) h)) as [|s l] eqn:El.
  - exact Hlast.
  - exfalso. apply Hno. rewrite <- Hlast. apply list_elem_of_In.
    destruct (@List.exists_last _ (s :: l)) as (l' & x & Hx);
      [discriminate|].
    rewrite Hx, List.last_last. apply in_or_app. right. left. reflexivity.
Qed.

Lemma only_timer_sets_playing_witness :
  CallPlay <> TimerFired /\
  (playing ∉ state_events (effects (step CallPlay) new_LiveMusicHelper)).
Proof.
  split; [discriminate|].
  apply (only_timer_sets_playing CallPlay new_LiveMusicHelper).
  discriminate.
Defined.

(** *** Connections across [pause()], [stop()] and [play()] *)

(** X6: [play()] calls the client factory exactly when no session promise
    is stored: once then, keeping the pending promise it gets, and not at
    all otherwise, when it takes the promise that is there.  [stop()] and
    the disconnect handler clear the stored promise and [pause()] keeps
    it, so that a [play()] straight after [stop()] or a disconnect calls
    the factory again.  But the continuation of [connect()] stores the
    promise of the connection it opens whatever has happened since
    [connect()] was called: when [stop()] or a disconnect comes while the
    factory is awaited, the connection is opened all the same, and the
    [play()] after it reuses that connection and calls nothing. *)
Theorem play_connects_iff_no_promise (h : Helper) (sid : nat) :
  factory_calls (effects play_begin h)
  = match sessionPromise h with Some _ => 0%nat | None => 1%nat end /\
  (sessionPromise h = None ->
   effects play_begin h
   = [Dispatch (PlaybackStateChanged loading); AiFactory] /\
   sessionPromise (after play_begin h) = Some (result play_begin h)) /\
  (forall p : PromiseRef,
     sessionPromise h = Some p ->
     effects play_begin h = [Dispatch (PlaybackStateChanged loading)] /\
     result play_begin h = p /\
     sessionPromise (after play_begin h) = Some p) /\
  (sessionPromise (after stop h) = None /\
   sessionPromise (after handleDisconnect h) = None /\
   sessionPromise (after pause h) = sessionPromise h) /\
  (forall reset : M unit,
     reset ∈ [stop; handleDisconnect] ->
     let h1 := after reset (after play_begin h) in
     let p := result (connect_resume sid) h1 in
     let h2 := after (connect_resume sid) h1 in
     sessionPromise h1 = None /\
     connects (effects (connect_resume sid) h1) = [p] /\
     sessionPromise h2 = Some p /\
     effects play_begin h2 = [Dispatch (PlaybackStateChanged loading)] /\
     result play_begin h2 = p).
Proof.
  split; [|split; [|split; [|split]]].
  - unfold_method. destruct (sessionPromise h); reflexivity.
  - intros Hp. unfold_method. rewrite Hp. cbn. split; reflexivity.
  - intros p Hp. unfold_method. rewrite Hp. cbn. repeat split. exact Hp.
  - unfold_method. method_cases; repeat split; reflexivity.
  - intros reset Hreset. apply list_elem_of_In in Hreset. cbn in Hreset.
    destruct Hreset as [<- | [<- | []]];
      unfold_method; method_cases; repeat split; reflexivity.
Qed.

Lemma play_finish_fields (h : Helper) : after play_finish h = h.
Proof.
  unfold_method. method_cases; destruct h; reflexivity.
Qed.


(** *** Sending the prompts *)

(** X8: before any session exists, an effective [setWeightedPrompts]
    with at least one active prompt only stores the snapshot: nothing is
    sent, no event is dispatched and no connection is started. *)
Theorem prompts_buffered_without_session (h : Helper)
  (ps : list (string * Prompt)) :
  session h = None ->
  activePrompts (set_prompts ps h) <> [] ->
  setWeightedPrompts_begin ps h = (NoSession, set_prompts ps h, []).
Proof.
  intros Hs Ha. unfold activePrompts in Ha. cbn in Ha.
  unfold_method. unfold activePrompts. cbn.
  destruct (List.filter _ _) as [|p l]; [contradiction|]. cbn.
  rewrite Hs. reflexivity.
Qed.

Lemma prompts_buffered_without_session_witness :
  session new_LiveMusicHelper = None /\
  setWeightedPrompts_begin one_prompt new_LiveMusicHelper
  = (NoSession, set_prompts one_prompt new_LiveMusicHelper, []).
Proof.
  split; [reflexivity|].
  apply (prompts_buffered_without_session new_LiveMusicHelper one_prompt).
  - reflexivity.
  - vm_compute. discriminate.
Defined.

Lemma setWeightedPrompts_begin_sends (h : Helper)
  (ps : list (string * Prompt)) (s : SessionRef) :
  session h = Some s ->
  activePrompts (set_prompts ps h) <> [] ->
  setWeightedPrompts_begin ps h
  = (Sending s, set_prompts ps h,
     [Send s (CmdSetWeightedPrompts (activePrompts (set_prompts ps h)))]).
Proof.
  intros Hs Ha. unfold_method.
  destruct (activePrompts (set_prompts ps h)) as [|p l] eqn:E;
    [contradiction|].
  unfold activePrompts in E. cbn in E. unfold activePrompts. cbn.
  rewrite E. cbn. rewrite Hs. reflexivity.
Qed.

(** X9: with a session, an effective [setWeightedPrompts] with at least
    one active prompt sends one message and does nothing else.  The
    message carries the prompts of the snapshot in their order, without
    those of weight 0 and without those whose text has been filtered. *)
Theorem prompts_sent_are_active (h : Helper) (ps : list (string * Prompt))
  (s : SessionRef) :
  session h = Some s ->
  activePrompts (set_prompts ps h) <> [] ->
  let sent := List.filter (isActive (filteredPrompts h)) (map snd ps) in
  setWeightedPrompts_begin ps h
  = (Sending s, set_prompts ps h, [Send s (CmdSetWeightedPrompts sent)]) /\
  sublist sent (map snd ps) /\
  (forall p, p ∈ sent <->
             p ∈ map snd ps /\ ~ (weight p == 0)%Q
             /\ text p ∉ filteredPrompts h).
Proof.
  intros Hs Ha sent.
  split; [|split].
  - apply (setWeightedPrompts_begin_sends h ps s Hs Ha).
  - subst sent. clear. induction (map snd ps) as [|p l IH]; cbn.
    + constructor.
    + destruct (isActive _ p); [apply sublist_skip | apply sublist_cons];
        exact IH.
  - intros p. subst sent. rewrite !list_elem_of_In, List.filter_In.
    unfold isActive. rewrite andb_true_iff, !negb_true_iff.
    rewrite bool_decide_eq_false, Qeq_bool_false. tauto.
Qed.

Lemma prompts_sent_are_active_witness :
  session connected = Some 7%nat /\
  effects (setWeightedPrompts_begin (muted_prompt ++ one_prompt)) connected
  = [Send 7%nat (CmdSetWeightedPrompts (map snd one_prompt))].
Proof.
  split; [reflexivity|].
  destruct (prompts_sent_are_active connected (muted_prompt ++ one_prompt)
              7%nat) as (E & _).
  - reflexivity.
  - vm_compute. discriminate.
  - unfold effects. rewrite E. reflexivity.
Defined.

(** X10: the [catch] of a failed send runs after the [await], on the
    helper as it is by then.  It shows the error once with its message and
    calls [pause()]: the state is [paused], the schedule is reset, the
    session and its promise are left as they are found, and a [pause]
    goes out on the session the helper holds at that moment.  When the
    [catch] runs straight after the send, that is the session of the
    send; when [stop()] or a disconnect came in between there is no
    session any more, nothing is sent, and the helper ends [paused]
    without a session. *)
Theorem send_failure_pauses (h : Helper) (message : string) :
  let m := setWeightedPrompts_catch message in
  (errors (effects m h) = [message] /\
   state_events (effects m h) = [paused] /\
   sends (effects m h)
   = match session h with Some s => [(s, CmdPause)] | None => [] end /\
   playbackState (after m h) = paused /\
   nextStartTime (after m h) = 0%Q /\
   session (after m h) = session h /\
   sessionPromise (after m h) = sessionPromise h /\
   prompts (after m h) = prompts h) /\
  (forall (ps : list (string * Prompt)) (s : SessionRef),
     session h = Some s ->
     activePrompts (set_prompts ps h) <> [] ->
     let run := setWeightedPrompts_run ps (Some message) in
     errors (effects run h) = [message] /\
     sends (effects run h)
     = [(s, CmdSetWeightedPrompts (activePrompts (set_prompts ps h)));
        (s, CmdPause)] /\
     playbackState (after run h) = paused /\
     session (after run h) = Some s) /\
  (forall (ps : list (string * Prompt)) (s : SessionRef)
          (between : M unit),
     session h = Some s ->
     activePrompts (set_prompts ps h) <> [] ->
     between ∈ [stop; onerror; onclose] ->
     let h1 := after between (after (setWeightedPrompts_begin ps) h) in
     sends (effects (setWeightedPrompts_begin ps) h)
     = [(s, CmdSetWeightedPrompts (activePrompts (set_prompts ps h)))] /\
     errors (effects m h1) = [message] /\
     sends (effects m h1) = [] /\
     playbackState (after m h1) = paused /\
     session (after m h1) = None /\
     sessionPromise (after m h1) = None).
Proof.
  intros m. subst m.
  assert (Hcatch : forall h0 : Helper,
            let m := setWeightedPrompts_catch message in
            errors (effects m h0) = [message] /\
            state_events (effects m h0) = [paused] /\
            sends (effects m h0)
            = match session h0 with Some s => [(s, CmdPause)] | None => [] end /\
            playbackState (after m h0) = paused /\
            nextStartTime (after m h0) = 0%Q /\
            session (after m h0) = session h0 /\
            sessionPromise (after m h0) = sessionPromise h0 /\
            prompts (after m h0) = prompts h0).
  { intros h0. unfold_method. destruct (session h0) eqn:Hs; cbn; repeat split;
      try exact Hs. }
  split; [apply Hcatch|]. split.
  - intros ps s Hs Ha run. subst run.
    unfold setWeightedPrompts_run, after, effects, bind.
    rewrite (setWeightedPrompts_begin_sends h ps s Hs Ha).
    unfold_method. rewrite Hs. cbn. repeat split. exact Hs.
  - intros ps s between Hs Ha Hb h1.
    assert (Hb0 : after (setWeightedPrompts_begin ps) h = set_prompts ps h).
    { unfold after. rewrite (setWeightedPrompts_begin_sends h ps s Hs Ha).
      reflexivity. }
    assert (Hgone : session h1 = None /\ sessionPromise h1 = None).
    { subst h1. rewrite Hb0. apply list_elem_of_In in Hb. cbn in Hb.
      destruct Hb as [<- | [<- | [<- | []]]];
        unfold_method; method_cases; split; reflexivity. }
    destruct Hgone as [Hs1 Hp1].
    destruct (Hcatch h1) as (He & _ & Hsend & Hst & _ & Hs2 & Hp2 & _).
    rewrite Hs1 in Hsend, Hs2. rewrite Hp1 in Hp2.
    split.
    { unfold effects. rewrite (setWeightedPrompts_begin_sends h ps s Hs Ha).
      reflexivity. }
    repeat split; assumption.
Qed.

(** *** What [pause()] and [stop()] leave behind *)

(** X11: [pause()] and [stop()] each announce their state exactly once,
    show no error, send at most their own command (when a session exists)
    and reset the schedule; neither touches the snapshot of prompts, the
    filtered texts or the pending timers.  [pause()] keeps the session and
    its promise, fades the old output node out and takes a node created
    for the occasion; [stop()] forgets the session and its promise, fades
    the output node in and keeps it. *)
Theorem pause_and_stop_effects (h : Helper) :
  let hp := after pause h in
  let hs := after stop h in
  (state_events (effects pause h) = [paused] /\
   state_events (effects stop h) = [stopped]) /\
  (errors (effects pause h) = [] /\ errors (effects stop h) = []) /\
  (sends (effects pause h)
   = match session h with Some s => [(s, CmdPause)] | None => [] end /\
   sends (effects stop h)
   = match session h with Some s => [(s, CmdStop)] | None => [] end) /\
  (nextStartTime hp = 0%Q /\ nextStartTime hs = 0%Q) /\
  (prompts hp = prompts h /\ filteredPrompts hp = filteredPrompts h /\
   timers hp = timers h) /\
  (prompts hs = prompts h /\ filteredPrompts hs = filteredPrompts h /\
   timers hs = timers h) /\
  (session hp = session h /\ sessionPromise hp = sessionPromise h) /\
  (session hs = None /\ sessionPromise hs = None) /\
  (GainLinearRampToValueAtTime (outputNode h) 0 (currentTime h + (1 # 10))%Q
     ∈ effects pause h /\
   CreateGain (outputNode hp) ∈ effects pause h) /\
  (GainLinearRampToValueAtTime (outputNode h) 1 (currentTime h + (1 # 10))%Q
     ∈ effects stop h /\
   outputNode hs = outputNode h).
Proof.
  unfold_method. destruct (session h) eqn:Hs; cbn; repeat split.
  all: try exact Hs.
  all: apply list_elem_of_In; cbn; tauto.
Qed.

(** *** The timers *)

Lemma step_timeouts (i : Input) (h : Helper) :
  bufferTime (after (step i) h) = bufferTime h /\
  Forall (fun ms => ms = (bufferTime h * 1000)%Q)
    (timeouts (effects (step i) h)).
Proof.
  destruct i; unfold step; unfold_method; method_cases;
    split; try reflexivity; repeat constructor.
Qed.

Lemma run_timeouts (trace : list Input) (h : Helper) :
  bufferTime (after (run trace) h) = bufferTime h /\
  Forall (fun ms => ms = (bufferTime h * 1000)%Q)
    (timeouts (effects (run trace) h)).
Proof.
  revert h. induction trace as [|i trace IH]; intros h.
  - split; [reflexivity | constructor].
  - rewrite after_run_cons, effects_run_cons.
    destruct (step_timeouts i h) as [Hb Ht].
    destruct (IH (after (step i) h)) as [Hb' Ht'].
    rewrite Hb in Hb', Ht'.
    split; [exact Hb'|].
    unfold timeouts. rewrite omap_app. apply Forall_app. split; assumption.
Qed.

(** X12: nothing ever assigns [bufferTime]: whatever happens to a helper,
    its lookahead stays at the 2 seconds of the field initialiser, and
    every timer it arms is one of 2000 milliseconds. *)
Theorem lookahead_is_two_seconds (trace : list Input) :
  bufferTime (after (run trace) new_LiveMusicHelper) = 2%Q /\
  Forall (fun ms => ms = (2 * 1000)%Q)
    (timeouts (effects (run trace) new_LiveMusicHelper)).
Proof.
  apply (run_timeouts trace new_LiveMusicHelper).
Qed.

(** *** Starting and restarting the stream *)



(** X14: [play()] does not reset the schedule.  Called on a stream that
    runs (time line anchored, no timer pending), it sets the state to
    [loading] and leaves [nextStartTime] alone; a fragment that is then on
    time is started as before and arms nothing, so the state stays
    [loading] with no timer left to turn it to [playing]. *)
Theorem play_on_running_stream_stays_loading (h : Helper) (duration : Q) :
  ~ (nextStartTime h == 0)%Q ->
  (currentTime h <= nextStartTime h)%Q ->
  timers h = [] ->
  let h1 := after play_begin h in
  let h2 := after (processAudioChunks_resume duration) h1 in
  playbackState h1 = loading /\
  nextStartTime h1 = nextStartTime h /\
  starts (effects (processAudioChunks_resume duration) h1)
  = [(nextStartTime h, duration)] /\
  timeouts (effects (processAudioChunks_resume duration) h1) = [] /\
  playbackState h2 = loading /\
  timers h2 = [] /\
  timer_fired h2 = (tt, h2, []).
Proof.
  intros Hnz Hle Ht h1 h2.
  assert (Hf : playbackState h1 = loading /\
               nextStartTime h1 = nextStartTime h /\
               currentTime h1 = currentTime h /\ timers h1 = timers h).
  { subst h1. unfold_method. method_cases; repeat split. }
  destruct Hf as (Hst & Hn & Hnow & Ht1).
  assert (E : processAudioChunks_resume duration h1
              = (true, set_nextStartTime (nextStartTime h1 + duration)%Q h1,
                 [ SourceConnect (outputNode h1);
                   SourceStart (outputNode h1) duration (nextStartTime h1) ])).
  { apply resume_on_time.
    - rewrite Hn. apply Qeq_bool_false. exact Hnz.
    - rewrite Hn, Hnow. apply Qltb_false. exact Hle. }
  split; [exact Hst|]. split; [exact Hn|].
  subst h2. unfold after, effects. rewrite E. cbn. rewrite Hn.
  repeat split; try assumption; try congruence.
  unfold timer_fired, bind, this. cbn. rewrite Ht1, Ht. reflexivity.
Qed.

Lemma play_on_running_stream_stays_loading_witness :
  let h := streaming playing 3 1 in
  let h1 := after play_begin h in
  timers h = [] /\
  playbackState (after (processAudioChunks_resume 1) h1) = loading /\
  timers (after (processAudioChunks_resume 1) h1) = [].
Proof.
  intros h h1.
  destruct (play_on_running_stream_stays_loading h 1)
    as (_ & _ & _ & _ & Hs & Ht & _).
  - vm_compute. discriminate.
  - vm_compute. discriminate.
  - reflexivity.
  - split; [reflexivity|]. split; [exact Hs | exact Ht].
Defined.

(** ** Further properties of the helper, continued *)

(** X21: commands only go to the session the helper holds.  Whatever
    runs, a command is sent either to the session stored in [session]
    when the segment starts, or, in the continuation of [play()] that
    receives a session, to the session just received; with no session
    stored nothing else can be sent. *)
Theorem sends_go_to_the_current_session (i : Input) (h : Helper)
  (s : SessionRef) (c : SessionCmd) :
  (s, c) ∈ sends (effects (step i) h) ->
  session h = Some s \/ exists through, i = SessionReady s through.
Proof.
  intros Hin. apply list_elem_of_In in Hin. revert Hin.
  destruct i; unfold step; unfold_method; method_cases; cbn;
    intros Hin;
    repeat match goal with
           | H : _ \/ _ |- _ => destruct H
           | H : False |- _ => destruct H
           | H : (_, _) = (_, _) |- _ => injection H as <- <-
           end;
    first [ left; congruence | right; eexists; reflexivity ].
Qed.

Lemma sends_go_to_the_current_session_witness :
  (7%nat, CmdPause) ∈ sends (effects (step CallPause) connected) /\
  (session connected = Some 7%nat
   \/ exists through, CallPause = SessionReady 7%nat through).
Proof.
  assert (Hin : (7%nat, CmdPause)
                  ∈ sends (effects (step CallPause) connected)).
  { apply list_elem_of_In. vm_compute. left. reflexivity. }
  split; [exact Hin|].
  apply (sends_go_to_the_current_session CallPause connected 7%nat CmdPause
           Hin).
Defined.

(** X22: [processAudioChunks] looks at the state before the decoding
    and not after it.  A fragment accepted while the stream was running
    and decoded after a [pause()] is started all the same: it anchors the
    schedule that [pause()] had reset, arms the timer and is connected to
    the output node that [pause()] created, while the state is still
    [paused]. *)
Theorem decode_outlives_pause (h : Helper) (c : AudioChunk)
  (cs : list AudioChunk) (duration : Q) :
  playbackState h = playing \/ playbackState h = loading ->
  (0 <= bufferTime h)%Q ->
  let hp := after pause h in
  let h' := after (processAudioChunks_resume duration) hp in
  result (processAudioChunks_begin (c :: cs)) h = Decoding c /\
  processAudioChunks_begin (c :: cs) hp = (Dropped, hp, []) /\
  effects (processAudioChunks_resume duration) hp
  = [ SourceConnect (outputNode hp);
      SetTimeout (bufferTime h * 1000)%Q;
      SourceStart (outputNode hp) duration (currentTime h + bufferTime h)%Q ] /\
  playbackState h' = paused /\
  nextStartTime h' = (currentTime h + bufferTime h + duration)%Q /\
  timers h' = timers h ++ [(bufferTime h * 1000)%Q].
Proof.
  intros Hst Hbuf hp h'.
  assert (Hf : playbackState hp = paused /\ nextStartTime hp = 0%Q /\
               currentTime hp = currentTime h /\
               bufferTime hp = bufferTime h /\ timers hp = timers h).
  { subst hp. unfold_method. method_cases; repeat split. }
  destruct Hf as (Hp & Hn & Hnow & Hb & Ht).
  assert (E : processAudioChunks_resume duration hp
              = (true,
                 set_nextStartTime
                   (currentTime hp + bufferTime hp + duration)%Q
                   (set_timers (timers hp ++ [(bufferTime hp * 1000)%Q]) hp),
                 [ SourceConnect (outputNode hp);
                   SetTimeout (bufferTime hp * 1000)%Q;
                   SourceStart (outputNode hp) duration
                     (currentTime hp + bufferTime hp)%Q ])).
  { apply resume_unanchored.
    - rewrite Hn. reflexivity.
    - rewrite Hb. exact Hbuf. }
  split.
  { unfold result. rewrite (begin_accepts h c cs Hst). reflexivity. }
  split; [apply begin_idle; left; exact Hp|].
  subst h'. unfold after, effects. rewrite E. cbn.
  rewrite Hnow, Hb, Ht. repeat split. exact Hp.
Qed.

Lemma decode_outlives_pause_witness :
  let h := streaming playing 3 1 in
  let hp := after pause h in
  playbackState h = playing /\
  starts (effects (processAudioChunks_resume 1) hp) = [((1 + 2)%Q, 1%Q)] /\
  playbackState (after (processAudioChunks_resume 1) hp) = paused.
Proof.
  intros h hp.
  destruct (decode_outlives_pause h (mkAudioChunk "AAAA") [] 1)
    as (_ & _ & He & Hp & _).
  - left. reflexivity.
  - vm_compute. discriminate.
  - split; [reflexivity|]. split; [|exact Hp].
    fold hp in He. rewrite He. reflexivity.
Defined.

(** ** Properties of the token endpoint *)

Lemma truthy_spec (s : option string) :
  Token.truthy s = true <-> exists v, s = Some v /\ v <> "".
Proof.
  destruct s as [v|]; cbn.
  - rewrite negb_true_iff, String.eqb_neq. split.
    + intros H. exists v. split; [reflexivity | exact H].
    + intros (v' & [= <-] & H). exact H.
  - split; [discriminate | intros (v & [=] & _)].
Qed.

(** Close a goal about one concrete answer of the handler. *)
Ltac answer_facts :=
  repeat match goal with
         | |- _ /\ _ => split
         | |- _ <-> _ => split
         end;
  try (intros H;
       first [ discriminate H
             | destruct H as (? & H); discriminate H
             | apply list_elem_of_In in H; cbn in H; intuition discriminate ]);
  first [ reflexivity
        | intros _; eexists; reflexivity
        | intros _; apply list_elem_of_In; cbn; tauto
        | tauto ].

(** X15: the handler answers every request exactly once, with status
    200, 405 or 500; a token is in the body only under status 200, and
    the header [Cache-Control: no-store] is set exactly with status
    200. *)
Theorem token_handler_answers_once (method key : option string)
  (sdk : Token.Sdk) :
  exists (status : Z) (body : Token.Body),
    Token.responses (Token.handler method key sdk) = [(status, body)] /\
    (status = 200 \/ status = 405 \/ status = 500)%Z /\
    ((exists token, body = Token.TokenBody token) <-> status = 200%Z) /\
    (Token.SetHeader "Cache-Control" "no-store"
       ∈ Token.handler method key sdk <-> status = 200%Z).
Proof.
  unfold Token.handler, Token.caught.
  destruct (bool_decide (method = Some "GET")); cbn.
  - destruct key as [apiKey|]; cbn.
    + destruct (String.eqb apiKey ""); cbn.
      * eexists _, _. split; [reflexivity|]. answer_facts.
      * destruct sdk as [message | message | name]; cbn.
        -- eexists _, _. split; [reflexivity|]. answer_facts.
        -- eexists _, _. split; [reflexivity|]. answer_facts.
        -- destruct (Token.truthy name); cbn;
             eexists _, _; (split; [reflexivity|]); answer_facts.
    + eexists _, _. split; [reflexivity|]. answer_facts.
  - eexists _, _. split; [reflexivity|]. answer_facts.
Qed.

(** X16: a token is issued exactly when the request is a [GET], the key
    of the environment is a non-empty string and the SDK returns a token
    with a non-empty name; the body is then that name, and the client was
    made with that key for the API version [v1alpha]. *)
Theorem token_issued_iff (method key : option string) (sdk : Token.Sdk)
  (token : string) :
  (200%Z, Token.TokenBody token)
    ∈ Token.responses (Token.handler method key sdk)
  <-> method = Some "GET" /\
      (exists apiKey, key = Some apiKey /\ apiKey <> "" /\
         hd_error (Token.handler method key sdk)
         = Some (Token.NewClient apiKey "v1alpha")) /\
      sdk = Token.CreateReturns (Some token) /\ token <> "".
Proof.
  split.
  - unfold Token.handler, Token.caught.
    destruct (decide (method = Some "GET")) as [Hm | Hm];
      [rewrite bool_decide_eq_true_2 by exact Hm
      |rewrite bool_decide_eq_false_2 by exact Hm]; cbn.
    2: { intros Hin. apply list_elem_of_In in Hin. cbn in Hin.
         intuition discriminate. }
    destruct key as [apiKey|]; cbn.
    2: { intros Hin. apply list_elem_of_In in Hin. cbn in Hin.
         intuition discriminate. }
    destruct (String.eqb_spec apiKey "") as [-> | Hk]; cbn.
    { intros Hin. apply list_elem_of_In in Hin. cbn in Hin.
      intuition discriminate. }
    destruct sdk as [message | message | [name|]]; cbn.
    3: destruct (String.eqb_spec name "") as [-> | Hn]; cbn.
    all: intros Hin; apply list_elem_of_In in Hin; cbn in Hin.
    all: try (exfalso; intuition discriminate).
    destruct Hin as [[= <-] | []].
    split; [exact Hm|]. split; [|split; [reflexivity | exact Hn]].
    exists apiKey. repeat split. exact Hk.
  - intros (-> & (apiKey & -> & Hk & _) & -> & Hn).
    unfold Token.handler.
    rewrite bool_decide_eq_true_2 by reflexivity. cbn.
    apply String.eqb_neq in Hk, Hn. rewrite Hk. cbn. rewrite Hn. cbn.
    apply list_elem_of_In. cbn. tauto.
Qed.

(** X17: the checks come in order and before any use of the SDK.  A
    request that is not a [GET] gets 405 whatever the environment holds;
    a [GET] without a key, or with an empty one, gets 500 for the
    misconfiguration; in both cases no client is made and no token is
    asked for. *)
Theorem token_handler_guards (method key : option string) (sdk : Token.Sdk) :
  (method <> Some "GET" ->
   Token.handler method key sdk
   = [Token.Respond 405 (Token.ErrorBody "Method Not Allowed")]) /\
  (method = Some "GET" -> Token.truthy key = false ->
   Token.handler method key sdk
   = [Token.Respond 500 (Token.ErrorBody
        "Server misconfiguration: GEMINI_API_KEY missing")]) /\
  (Token.sdk_used (Token.handler method key sdk) = true ->
   method = Some "GET" /\ Token.truthy key = true).
Proof.
  unfold Token.handler, Token.caught.
  destruct (decide (method = Some "GET")) as [Hm | Hm].
  - rewrite bool_decide_eq_true_2 by exact Hm. cbn.
    split; [contradiction|].
    destruct key as [apiKey|]; cbn.
    + destruct (String.eqb apiKey ""); cbn.
      * split; [reflexivity | discriminate].
      * split; [discriminate | auto].
    + split; [reflexivity | discriminate].
  - rewrite bool_decide_eq_false_2 by exact Hm. cbn.
    split; [reflexivity|]. split; [contradiction | discriminate].
Qed.

(** X18: an error thrown by the SDK is answered with status 500 and the
    message of the error, or with ["Internal Server Error"] when the
    error carries none; a token without a name is answered with 500 as
    well.  None of these answers sets the header. *)
Theorem token_handler_failures (apiKey : string) (message : option string) :
  apiKey <> "" ->
  let run := Token.handler (Some "GET") (Some apiKey) in
  Token.responses (run (Token.CreateThrows message))
  = [(500%Z, Token.ErrorBody (default "Internal Server Error" message))] /\
  Token.responses (run (Token.ClientThrows message))
  = [(500%Z, Token.ErrorBody (default "Internal Server Error" message))] /\
  Token.sdk_used (run (Token.ClientThrows message)) = false /\
  run (Token.CreateReturns None) = run (Token.CreateReturns (Some "")) /\
  Token.responses (run (Token.CreateReturns None))
  = [(500%Z, Token.ErrorBody "Failed to create auth token")].
Proof.
  intros Hk run. subst run. unfold Token.handler, Token.caught.
  rewrite bool_decide_eq_true_2 by reflexivity. cbn.
  apply String.eqb_neq in Hk. rewrite Hk. cbn. repeat split.
Qed.

Lemma token_handler_failures_witness :
  "secret" <> "" /\
  Token.responses
    (Token.handler (Some "GET") (Some "secret") (Token.CreateThrows None))
  = [(500%Z, Token.ErrorBody "Internal Server Error")].
Proof.
  split; [discriminate|].
  apply (token_handler_failures "secret" None). discriminate.
Defined.

(** ** Properties of the prompt grid *)

Lemma get_set_same (m : PromptDjMidi.PromptMap) (k : string) (v : Prompt) :
  PromptDjMidi.get (PromptDjMidi.set m k v) k = Some v.
Proof.
  induction m as [|[k0 v0] m IH]; cbn.
  - rewrite String.eqb_refl. reflexivity.
  - destruct (String.eqb k0 k) eqn:E; cbn; rewrite E; [reflexivity | exact IH].
Qed.

Lemma get_set_other (m : PromptDjMidi.PromptMap) (k k' : string) (v : Prompt) :
  k' <> k ->
  PromptDjMidi.get (PromptDjMidi.set m k v) k' = PromptDjMidi.get m k'.
Proof.
  intros Hne. induction m as [|[k0 v0] m IH]; cbn.
  - apply not_eq_sym, String.eqb_neq in Hne. rewrite Hne. reflexivity.
  - destruct (String.eqb_spec k0 k) as [-> | Hk]; cbn.
    + apply not_eq_sym, String.eqb_neq in Hne. rewrite Hne. reflexivity.
    + rewrite IH. reflexivity.
Qed.

Lemma keys_set_present (m : PromptDjMidi.PromptMap) (k : string)
  (v : Prompt) :
  PromptDjMidi.get m k <> None ->
  map fst (PromptDjMidi.set m k v) = map fst m.
Proof.
  induction m as [|[k0 v0] m IH]; cbn; intros Hget.
  - contradiction.
  - destruct (String.eqb k0 k) eqn:E; cbn.
    + reflexivity.
    + rewrite IH by exact Hget. reflexivity.
Qed.

(** X19: [setPromptWeight] on an identifier that is not in the map
    changes nothing and dispatches nothing.  On one that is, it replaces
    only the weight of that prompt: its text, controller and colour, the
    other prompts, and the keys with their order stay, and the new map is
    dispatched once as [prompts-changed]. *)
Theorem setPromptWeight_replaces_weight (st : PromptDjMidi.State)
  (id : string) (w : Q) :
  let st' := fst (PromptDjMidi.setPromptWeight id w st) in
  (PromptDjMidi.get (PromptDjMidi.prompts st) id = None ->
   PromptDjMidi.setPromptWeight id w st = (st, [])) /\
  (forall p : Prompt,
     PromptDjMidi.get (PromptDjMidi.prompts st) id = Some p ->
     PromptDjMidi.get (PromptDjMidi.prompts st') id
     = Some (mkPrompt (promptId p) (text p) w (cc p) (color p)) /\
     (forall id', id' <> id ->
        PromptDjMidi.get (PromptDjMidi.prompts st') id'
        = PromptDjMidi.get (PromptDjMidi.prompts st) id') /\
     map fst (PromptDjMidi.prompts st') = map fst (PromptDjMidi.prompts st) /\
     snd (PromptDjMidi.setPromptWeight id w st)
     = [ PromptDjMidi.RequestUpdate;
         PromptDjMidi.PromptsChanged (PromptDjMidi.prompts st') ] /\
     PromptDjMidi.filteredPrompts st' = PromptDjMidi.filteredPrompts st).
Proof.
  intros st'. subst st'. unfold PromptDjMidi.setPromptWeight.
  split.
  - intros Hnone. rewrite Hnone. reflexivity.
  - intros p Hp. rewrite Hp. cbn.
    split; [apply get_set_same|].
    split; [intros id' Hne; apply get_set_other; exact Hne|].
    split; [apply keys_set_present; congruence|].
    split; reflexivity.
Qed.

(** What a gesture keeps true of the component once the dial [id] has
    been activated on the weight [b]. *)
Lemma updateDial_window (st : PromptDjMidi.State) (id : string) (a b : Q)
  (p : Prompt) (r y v : Q) :
  id <> "" ->
  PromptDjMidi.activePromptId st = Some id ->
  PromptDjMidi.rotationStartAngle st = Some a ->
  PromptDjMidi.baseWeight st = Some b ->
  PromptDjMidi.minWeightAllowed st = Some (Qmax 0 (b - (2 # 3))) ->
  PromptDjMidi.maxWeightAllowed st = Some (Qmin 2 (b + (2 # 3))) ->
  PromptDjMidi.get (PromptDjMidi.prompts st) id = Some p ->
  (0 <= b <= 2)%Q ->
  let st' := fst (PromptDjMidi.updateDial r y v st) in
  PromptDjMidi.activePromptId st' = Some id /\
  PromptDjMidi.rotationStartAngle st' = Some a /\
  PromptDjMidi.baseWeight st' = Some b /\
  PromptDjMidi.minWeightAllowed st' = Some (Qmax 0 (b - (2 # 3))) /\
  PromptDjMidi.maxWeightAllowed st' = Some (Qmin 2 (b + (2 # 3))) /\
  (exists p',
     PromptDjMidi.get (PromptDjMidi.prompts st') id = Some p' /\
     text p' = text p /\
     (0 <= weight p' <= 2)%Q /\
     (b - (2 # 3) <= weight p' <= b + (2 # 3))%Q) /\
  (forall id', id' <> id ->
     PromptDjMidi.get (PromptDjMidi.prompts st') id'
     = PromptDjMidi.get (PromptDjMidi.prompts st) id').
Proof.
  intros Hid Ha Hr Hb Hmin Hmax Hp Hrange st'. subst st'.
  unfold PromptDjMidi.updateDial. rewrite Ha, Hr, Hb.
  apply String.eqb_neq in Hid. rewrite Hid.
  rewrite Hmin, Hmax. cbn [PromptDjMidi.number default].
  unfold PromptDjMidi.setPromptWeight. rewrite Hp. cbn.
  repeat split; try assumption.
  - eexists. split; [apply get_set_same|]. cbn. split; [reflexivity|].
    set (proposed := (b + r + _ * v)%Q). clearbody proposed.
    pose proof (Q.max_spec 0 (b - (2 # 3))) as Hlo.
    pose proof (Q.min_spec 2 (b + (2 # 3))) as Hhi.
    pose proof (Q.min_spec (Qmin 2 (b + (2 # 3))) proposed) as Hin.
    pose proof (Q.max_spec (Qmax 0 (b - (2 # 3)))
                  (Qmin (Qmin 2 (b + (2 # 3))) proposed)) as Hout.
    revert Hlo Hhi Hin Hout.
    generalize (Qmax (Qmax 0 (b - (2 # 3)))
                  (Qmin (Qmin 2 (b + (2 # 3))) proposed)).
    generalize (Qmin (Qmin 2 (b + (2 # 3))) proposed).
    generalize (Qmin 2 (b + (2 # 3))).
    generalize (Qmax 0 (b - (2 # 3))).
    intros lo hi inner outer Hlo Hhi Hin Hout.
    destruct Hlo as [[? ?] | [? ?]], Hhi as [[? ?] | [? ?]],
      Hin as [[? ?] | [? ?]], Hout as [[? ?] | [? ?]]; lra.
  - intros id' Hne. apply get_set_other. exact Hne.
Qed.

(** X20: a dial gesture is bounded.  Once a dial whose weight lies in
    the range from 0 to 2 has been activated, no sequence of movements of
    the hand takes its weight out of that range or further than two thirds
    from the weight it had at the activation; the text of the prompt and
    all other prompts are left as they were. *)
Theorem dial_gesture_bounded (st : PromptDjMidi.State) (id : string)
  (p : Prompt) (handAngle y0 : Q) (moves : list (Q * Q * Q)) :
  id <> "" ->
  PromptDjMidi.get (PromptDjMidi.prompts st) id = Some p ->
  (0 <= weight p <= 2)%Q ->
  let st' := PromptDjMidi.updateDials moves
               (PromptDjMidi.activateDial id handAngle y0 st) in
  (exists p',
     PromptDjMidi.get (PromptDjMidi.prompts st') id = Some p' /\
     text p' = text p /\
     (0 <= weight p' <= 2)%Q /\
     (weight p - (2 # 3) <= weight p' <= weight p + (2 # 3))%Q) /\
  (forall id', id' <> id ->
     PromptDjMidi.get (PromptDjMidi.prompts st') id'
     = PromptDjMidi.get (PromptDjMidi.prompts st) id').
Proof.
  intros Hid Hp Hrange st'. subst st'.
  set (b := weight p).
  set (st0 := PromptDjMidi.activateDial id handAngle y0 st).
  assert (Hinv :
    PromptDjMidi.activePromptId st0 = Some id /\
    PromptDjMidi.rotationStartAngle st0 = Some handAngle /\
    PromptDjMidi.baseWeight st0 = Some b /\
    PromptDjMidi.minWeightAllowed st0 = Some (Qmax 0 (b - (2 # 3))) /\
    PromptDjMidi.maxWeightAllowed st0 = Some (Qmin 2 (b + (2 # 3))) /\
    (exists p',
       PromptDjMidi.get (PromptDjMidi.prompts st0) id = Some p' /\
       text p' = text p /\
       (0 <= weight p' <= 2)%Q /\
       (b - (2 # 3) <= weight p' <= b + (2 # 3))%Q) /\
    (forall id', id' <> id ->
       PromptDjMidi.get (PromptDjMidi.prompts st0) id'
       = PromptDjMidi.get (PromptDjMidi.prompts st) id')).
  { subst st0. unfold PromptDjMidi.activateDial. rewrite Hp. cbn.
    repeat split. exists p. fold b. repeat split; try tauto; lra. }
  clearbody st0. revert st0 Hinv.
  induction moves as [|[[r y] v] moves IH]; intros st0 Hinv.
  - destruct Hinv as (_ & _ & _ & _ & _ & Hex & Hothers).
    split; assumption.
  - cbn [PromptDjMidi.updateDials]. apply IH.
    destruct Hinv as (Ha & Hr & Hb & Hmin & Hmax & (p' & Hp' & Ht & _) & Ho).
    destruct (updateDial_window st0 id handAngle b p' r y v
                Hid Ha Hr Hb Hmin Hmax Hp' Hrange)
      as (Ha' & Hr' & Hb' & Hmin' & Hmax' & (p'' & Hp'' & Ht' & Hw) & Ho').
    repeat split; try assumption.
    + exists p''. split; [exact Hp''|]. split; [congruence | exact Hw].
    + intros id' Hne. rewrite Ho' by exact Hne. apply Ho. exact Hne.
Qed.

Lemma dial_gesture_bounded_witness :
  let st := PromptDjMidi.mkState one_prompt ∅ None None None None None None in
  let st' := PromptDjMidi.updateDials [(5%Q, 0%Q, (1 # 100)%Q)]
               (PromptDjMidi.activateDial "p1" 0 0 st) in
  "p1" <> "" /\
  exists p',
    PromptDjMidi.get (PromptDjMidi.prompts st') "p1" = Some p' /\
    (0 <= weight p' <= 2)%Q.
Proof.
  intros st st'. split; [discriminate|].
  destruct (dial_gesture_bounded st "p1"
              (mkPrompt "p1" "Bossa Nova" 1 0 "#9900ff") 0 0
              [(5%Q, 0%Q, (1 # 100)%Q)])
    as ((p' & Hget & _ & Hw & _) & _).
  - discriminate.
  - reflexivity.
  - split; vm_compute; discriminate.
  - exists p'. split; [exact Hget | exact Hw].
Defined.

(** ** Properties of the piano banner *)

Lemma soundingAfter_app (sounding : list nat)
  (l1 l2 : list PromptDjMidi.SynthEffect) :
  PromptDjMidi.soundingAfter sounding (l1 ++ l2)
  = PromptDjMidi.soundingAfter (PromptDjMidi.soundingAfter sounding l1) l2.
Proof.
  revert sounding. induction l1 as [|e l1 IH]; intros sounding.
  - reflexivity.
  - destruct e; cbn; apply IH.
Qed.

Lemma noteOff_pinch (s : PromptDjMidi.Synth) :
  (PromptDjMidi.pinchVoices s <> [] -> PromptDjMidi.audioCtx s = true) ->
  let s' := fst (PromptDjMidi.noteOff "pinch" s) in
  PromptDjMidi.pinchVoices s' = [] /\
  PromptDjMidi.soundingAfter (PromptDjMidi.pinchVoices s)
    (snd (PromptDjMidi.noteOff "pinch" s)) = [] /\
  PromptDjMidi.audioCtx s' = PromptDjMidi.audioCtx s.
Proof.
  unfold PromptDjMidi.pinchVoices, PromptDjMidi.noteOff.
  destruct s as [keys idx voices ctx ins n]. cbn. intros Hctx.
  destruct (voices !! "pinch") as [o|] eqn:Ev; cbn in *.
  - rewrite Hctx by discriminate. cbn. rewrite lookup_delete_eq. cbn.
    rewrite Nat.eqb_refl. repeat split.
  - destruct ctx; cbn; rewrite ?Ev; repeat split.
Qed.

Lemma noteOn_pinch (contextOk : bool) (midiNote : Z)
  (s : PromptDjMidi.Synth) :
  PromptDjMidi.pinchVoices s = [] ->
  let s' := fst (PromptDjMidi.noteOn contextOk "pinch" midiNote s) in
  PromptDjMidi.soundingAfter []
    (snd (PromptDjMidi.noteOn contextOk "pinch" midiNote s))
  = PromptDjMidi.pinchVoices s' /\
  (PromptDjMidi.pinchVoices s' <> [] -> PromptDjMidi.audioCtx s' = true).
Proof.
  unfold PromptDjMidi.pinchVoices, PromptDjMidi.noteOn.
  destruct s as [keys idx voices ctx ins n]. cbn. intros Hnone.
  destruct (ctx || contextOk) eqn:Ec; cbn.
  - destruct (String.eqb _ "drums"); cbn.
    + rewrite Hnone. split; [reflexivity | contradiction].
    + rewrite lookup_insert_eq. cbn. split; [reflexivity | auto].
  - rewrite Hnone. split; [reflexivity | contradiction].
Qed.

Lemma noteOn_index (contextOk : bool) (id : string) (midiNote : Z)
  (s : PromptDjMidi.Synth) :
  PromptDjMidi.pinchActiveKeyIndex
    (fst (PromptDjMidi.noteOn contextOk id midiNote s))
  = PromptDjMidi.pinchActiveKeyIndex s.
Proof.
  unfold PromptDjMidi.noteOn.
  destruct (negb _); [reflexivity|].
  destruct (String.eqb _ "drums"); reflexivity.
Qed.

Lemma release_pinch (s : PromptDjMidi.Synth) (sounding : list nat) :
  PromptDjMidi.voices_ok s sounding ->
  let r := match PromptDjMidi.pinchActiveKeyIndex s with
           | Some _ =>
               let '(s1, e1) := PromptDjMidi.noteOff "pinch" s in
               (PromptDjMidi.with_index None s1, e1)
           | None => (s, [])
           end in
  PromptDjMidi.voices_ok (fst r) (PromptDjMidi.soundingAfter sounding (snd r))
  /\ PromptDjMidi.pinchVoices (fst r) = [].
Proof.
  intros [-> Hok].
  destruct (PromptDjMidi.pinchActiveKeyIndex s) as [j|] eqn:Ej; cbn.
  - destruct (noteOff_pinch s) as (Hv & Hs & _); [tauto|].
    destruct (PromptDjMidi.noteOff "pinch" s) as [s1 e1]. cbn in *.
    unfold PromptDjMidi.voices_ok.
    change (PromptDjMidi.pinchVoices (PromptDjMidi.with_index None s1))
      with (PromptDjMidi.pinchVoices s1).
    rewrite Hv, Hs. repeat split; contradiction.
  - assert (Hnone : PromptDjMidi.pinchVoices s = []).
    { destruct (PromptDjMidi.pinchVoices s) eqn:E; [reflexivity|].
      destruct Hok as [Hidx _]; [discriminate | contradiction]. }
    unfold PromptDjMidi.voices_ok. rewrite Hnone.
    repeat split; contradiction.
Qed.

Lemma synthStep_voices_ok (i : PromptDjMidi.SynthInput)
  (s : PromptDjMidi.Synth) (sounding : list nat) :
  PromptDjMidi.voices_ok s sounding ->
  PromptDjMidi.voices_ok (fst (PromptDjMidi.synthStep i s))
    (PromptDjMidi.soundingAfter sounding (snd (PromptDjMidi.synthStep i s))) /\
  (PromptDjMidi.releases i ->
   PromptDjMidi.pinchVoices (fst (PromptDjMidi.synthStep i s)) = []).
Proof.
  intros Hok.
  destruct i as [contextOk isPinching pinchPoint | index | width height].
  2, 3: split; [exact Hok | contradiction].
  cbn [PromptDjMidi.synthStep PromptDjMidi.releases].
  unfold PromptDjMidi.handlePianoPinch.
  destruct (if isPinching then pinchPoint else None) as [[x y]|] eqn:Ept.
  - split; [|destruct isPinching; [intros [[=] | ->]; discriminate
                                  | discriminate]].
    destruct (PromptDjMidi.hitTestPiano (PromptDjMidi.pianoKeys s) x y)
      as [k|].
    + case_bool_decide as Hsame; [exact Hok|].
      destruct Hok as [-> Hok].
      assert (H1 : let r := match PromptDjMidi.pinchActiveKeyIndex s with
                            | Some _ => PromptDjMidi.noteOff "pinch" s
                            | None => (s, [])
                            end in
                   PromptDjMidi.pinchVoices (fst r) = [] /\
                   PromptDjMidi.soundingAfter (PromptDjMidi.pinchVoices s)
                     (snd r) = []).
      { destruct (PromptDjMidi.pinchActiveKeyIndex s) as [j|] eqn:Ej; cbn.
        - destruct (noteOff_pinch s) as (Hv & Hs & _); [tauto | tauto].
        - destruct (PromptDjMidi.pinchVoices s) eqn:E; [tauto|].
          destruct Hok as [Hidx _]; [discriminate | contradiction]. }
      cbn zeta in H1.
      destruct (match PromptDjMidi.pinchActiveKeyIndex s with
                | Some _ => PromptDjMidi.noteOff "pinch" s
                | None => (s, [])
                end) as [s1 e1].
      cbn in H1. destruct H1 as [Hv1 Hs1].
      set (midiNote := match PromptDjMidi.pianoKeys s !! k with
                       | Some key => PromptDjMidi.note key
                       | None => 0%Z
                       end).
      destruct (noteOn_pinch contextOk midiNote s1 Hv1) as [Hs2 Hctx2].
      pose proof (noteOn_index contextOk "pinch" midiNote s1) as Hidx2.
      destruct (PromptDjMidi.noteOn contextOk "pinch" midiNote s1)
        as [s2 e2].
      cbn in *. unfold PromptDjMidi.voices_ok.
      change (PromptDjMidi.pinchVoices (PromptDjMidi.with_index (Some k) s2))
        with (PromptDjMidi.pinchVoices s2).
      rewrite soundingAfter_app, Hs1, Hs2.
      split; [reflexivity|]. intros Hne. split; [discriminate | auto].
    + apply (release_pinch s sounding Hok).
  - split; [|intros _]; apply (release_pinch s sounding Hok).
Qed.

Lemma synthRun_voices_ok (inputs : list PromptDjMidi.SynthInput)
  (s : PromptDjMidi.Synth) (sounding : list nat) :
  PromptDjMidi.voices_ok s sounding ->
  PromptDjMidi.voices_ok (fst (PromptDjMidi.synthRun inputs s))
    (PromptDjMidi.soundingAfter sounding
       (snd (PromptDjMidi.synthRun inputs s))).
Proof.
  revert s sounding. induction inputs as [|i inputs IH]; intros s sounding Hok.
  - exact Hok.
  - cbn [PromptDjMidi.synthRun].
    destruct (synthStep_voices_ok i s sounding Hok) as [Hstep _].
    destruct (PromptDjMidi.synthStep i s) as [s1 e1]. cbn in Hstep.
    specialize (IH s1 _ Hstep).
    destruct (PromptDjMidi.synthRun inputs s1) as [s2 e2]. cbn in *.
    rewrite soundingAfter_app. exact IH.
Qed.

Lemma synthRun_snoc (inputs : list PromptDjMidi.SynthInput)
  (i : PromptDjMidi.SynthInput) (s : PromptDjMidi.Synth) :
  PromptDjMidi.synthRun (inputs ++ [i]) s
  = let '(s1, e1) := PromptDjMidi.synthRun inputs s in
    let '(s2, e2) := PromptDjMidi.synthStep i s1 in
    (s2, e1 ++ e2).
Proof.
  revert s. induction inputs as [|j inputs IH]; intros s.
  - cbn. destruct (PromptDjMidi.synthStep i s) as [s2 e2].
    rewrite app_nil_r. reflexivity.
  - cbn [app PromptDjMidi.synthRun].
    destruct (PromptDjMidi.synthStep j s) as [s0 e0]. rewrite IH.
    destruct (PromptDjMidi.synthRun inputs s0) as [s1 e1].
    destruct (PromptDjMidi.synthStep i s1) as [s2 e2].
    rewrite app_assoc. reflexivity.
Qed.

Lemma new_Synth_voices_ok :
  PromptDjMidi.voices_ok PromptDjMidi.new_Synth [].
Proof.
  split; [reflexivity | intros H; contradiction].
Qed.

(** X23: the pinch never holds two notes.  Over any sequence of frames,
    choices of instrument and resizings, the oscillators that have been
    started and on which [stop] has not been called are exactly the one
    registered for the pinch, if any: there is at most one, and there is
    one only while a key is marked active.  (An oscillator on which
    [stop] has been called is not counted, though it sounds on for the
    release of 0.1 s that [noteOff] schedules.) *)
Theorem pinch_holds_one_voice (inputs : list PromptDjMidi.SynthInput) :
  let s := fst (PromptDjMidi.synthRun inputs PromptDjMidi.new_Synth) in
  let log := snd (PromptDjMidi.synthRun inputs PromptDjMidi.new_Synth) in
  PromptDjMidi.soundingAfter [] log
  = option_list (PromptDjMidi.activeVoices s !! "pinch") /\
  (length (PromptDjMidi.soundingAfter [] log) <= 1)%nat /\
  (PromptDjMidi.soundingAfter [] log <> [] ->
   PromptDjMidi.pinchActiveKeyIndex s <> None).
Proof.
  intros s log.
  destruct (synthRun_voices_ok inputs PromptDjMidi.new_Synth []
              new_Synth_voices_ok) as [Hs Hidx].
  fold s log in Hs, Hidx. unfold PromptDjMidi.pinchVoices in Hs, Hidx.
  rewrite Hs. split; [reflexivity|]. split.
  - destruct (PromptDjMidi.activeVoices s !! "pinch"); cbn; lia.
  - intros Hne. apply Hidx. exact Hne.
Qed.

(** X24: the end of a pinch silences the banner.  After any history, a
    frame without a pinch or without a pinch point leaves no oscillator
    sounding and no key marked active. *)
Theorem release_silences (inputs : list PromptDjMidi.SynthInput)
  (i : PromptDjMidi.SynthInput) :
  PromptDjMidi.releases i ->
  let r := PromptDjMidi.synthRun (inputs ++ [i]) PromptDjMidi.new_Synth in
  PromptDjMidi.soundingAfter [] (snd r) = [] /\
  PromptDjMidi.pinchActiveKeyIndex (fst r) = None.
Proof.
  intros Hrel r. subst r. rewrite synthRun_snoc.
  pose proof (synthRun_voices_ok inputs PromptDjMidi.new_Synth []
                new_Synth_voices_ok) as Hok.
  destruct (PromptDjMidi.synthRun inputs PromptDjMidi.new_Synth) as [s1 e1].
  cbn in Hok.
  destruct (synthStep_voices_ok i s1 _ Hok) as [[Hs _] Hnone].
  specialize (Hnone Hrel).
  assert (Hidx : PromptDjMidi.pinchActiveKeyIndex
                   (fst (PromptDjMidi.synthStep i s1)) = None).
  { destruct i as [contextOk isPinching pinchPoint | |]; try contradiction.
    cbn in Hrel. cbn [PromptDjMidi.synthStep].
    unfold PromptDjMidi.handlePianoPinch.
    assert (E : (if isPinching then pinchPoint else None) = None).
    { destruct Hrel as [-> | ->]; [reflexivity | destruct isPinching;
        reflexivity]. }
    rewrite E.
    destruct (PromptDjMidi.pinchActiveKeyIndex s1) eqn:Ei; [|exact Ei].
    destruct (PromptDjMidi.noteOff "pinch" s1). reflexivity. }
  destruct (PromptDjMidi.synthStep i s1) as [s2 e2]. cbn in *.
  rewrite soundingAfter_app, Hs, Hnone. split; [reflexivity | exact Hidx].
Qed.

Lemma release_silences_witness :
  let keys := PromptDjMidi.Resize 2300 1000 in
  let down := PromptDjMidi.Pinch true true (Some (150%Q, 10%Q)) in
  let up := PromptDjMidi.Pinch true false None in
  PromptDjMidi.releases up /\
  PromptDjMidi.soundingAfter []
    (snd (PromptDjMidi.synthRun [keys; down] PromptDjMidi.new_Synth)) = [0%nat]
  /\
  PromptDjMidi.soundingAfter []
    (snd (PromptDjMidi.synthRun ([keys; down] ++ [up])
            PromptDjMidi.new_Synth)) = [].
Proof.
  intros keys down up.
  split; [left; reflexivity|]. split; [vm_compute; reflexivity|].
  apply (release_silences [keys; down] up). left. reflexivity.
Defined.

(** *** The keys of the banner *)

Lemma hitTestFrom_first (b : nat) (keys : list PromptDjMidi.PianoKey)
  (x y : Q) :
  match PromptDjMidi.hitTestFrom b keys x y with
  | Some r =>
      exists i k, r = (b + i)%nat /\ keys !! i = Some k /\
        PromptDjMidi.inKey k x y = true /\
        (forall j k', (j < i)%nat -> keys !! j = Some k' ->
                      PromptDjMidi.inKey k' x y = false)
  | None =>
      forall i k, keys !! i = Some k -> PromptDjMidi.inKey k x y = false
  end.
Proof.
  revert b. induction keys as [|k0 keys IH]; intros b; cbn.
  - intros i k Hk. discriminate Hk.
  - destruct (PromptDjMidi.inKey k0 x y) eqn:E0.
    + exists 0%nat, k0. repeat split; [lia | exact E0 | intros; lia].
    + specialize (IH (S b)).
      destruct (PromptDjMidi.hitTestFrom (S b) keys x y) as [r|].
      * destruct IH as (i & k & -> & Hk & Hin & Hfirst).
        exists (S i), k. repeat split; [lia | exact Hk | exact Hin |].
        intros [|j] k' Hj Hk'; cbn in Hk'.
        -- injection Hk' as <-. exact E0.
        -- apply (Hfirst j k'); [lia | exact Hk'].
      * intros [|i] k Hk; cbn in Hk.
        -- injection Hk as <-. exact E0.
        -- apply (IH i k Hk).
Qed.

Lemma hitTestFrom_none (b : nat) (keys : list PromptDjMidi.PianoKey)
  (x y : Q) :
  (forall i k, keys !! i = Some k -> PromptDjMidi.inKey k x y = false) ->
  PromptDjMidi.hitTestFrom b keys x y = None.
Proof.
  revert b. induction keys as [|k0 keys IH]; intros b Hall; cbn.
  - reflexivity.
  - rewrite (Hall 0%nat k0 eq_refl). apply IH.
    intros i k Hk. apply (Hall (S i) k). exact Hk.
Qed.

Lemma computePianoKeys_lookup (width height : Q) (i : nat)
  (k : PromptDjMidi.PianoKey) :
  PromptDjMidi.computePianoKeys width height !! i = Some k ->
  (i < 23)%nat /\
  k = PromptDjMidi.mkKey (fmul (inject_Z (Z.of_nat i)) (fdiv width 23)) 0
        (fdiv width 23) (Qmax 60 (fmul height (binary64 (14 # 100))))
        (nth i PromptDjMidi.pianoNotes 0%Z).
Proof.
  unfold PromptDjMidi.computePianoKeys. rewrite list_lookup_imap.
  intros Hk.
  destruct (PromptDjMidi.pianoNotes !! i) as [n|] eqn:En; [|discriminate].
  cbn in Hk. injection Hk as <-.
  pose proof (lookup_lt_Some _ _ _ En) as Hlt.
  change (length PromptDjMidi.pianoNotes) with 23%nat in Hlt.
  split; [exact Hlt|].
  f_equal. symmetry. apply nth_lookup_Some with (d := 0%Z) in En. exact En.
Qed.

Lemma imap_notes (fx : nat -> Q) (w h : Q) (notes : list Z) :
  map PromptDjMidi.note
    (imap (fun i n => PromptDjMidi.mkKey (fx i) 0 w h n) notes) = notes.
Proof.
  revert fx. induction notes as [|n notes IH]; intros fx; cbn.
  - reflexivity.
  - f_equal. apply (IH (fx ∘ S)).
Qed.

(** X25: [computePianoKeys] makes 23 keys that carry the generated notes
    in order; the key [i] has its left edge at [i * keyW] with
    [keyW = width / 23], both rounded to doubles, and the height of the
    banner.  [hitTestPiano] returns the first key whose rectangle holds
    the point, the edges included, the right edge being the rounded sum
    [k.x + k.w]; it returns null when no rectangle holds the point, as
    for every point left of the banner or above it.  The rounded spans
    need not reach the right edge of the host: for a host 1600 wide the
    last key ends below 1600, and the point at x = 1600 hits no key,
    while the point at x = 800 hits the key 11. *)
Theorem hit_test_finds_first_key (width height x y : Q) :
  let keys := PromptDjMidi.computePianoKeys width height in
  length keys = 23%nat /\
  map PromptDjMidi.note keys = PromptDjMidi.pianoNotes /\
  (forall i k, keys !! i = Some k ->
     k = PromptDjMidi.mkKey (fmul (inject_Z (Z.of_nat i)) (fdiv width 23)) 0
           (fdiv width 23) (Qmax 60 (fmul height (binary64 (14 # 100))))
           (nth i PromptDjMidi.pianoNotes 0%Z)) /\
  match PromptDjMidi.hitTestPiano keys x y with
  | Some i =>
      exists k, keys !! i = Some k /\
        PromptDjMidi.inKey k x y = true /\
        (forall j k', (j < i)%nat -> keys !! j = Some k' ->
                      PromptDjMidi.inKey k' x y = false)
  | None =>
      forall i k, keys !! i = Some k -> PromptDjMidi.inKey k x y = false
  end /\
  ((0 <= width)%Q -> (x < 0)%Q \/ (y < 0)%Q ->
   PromptDjMidi.hitTestPiano keys x y = None) /\
  (let keys1600 := PromptDjMidi.computePianoKeys 1600 900 in
   PromptDjMidi.hitTestPiano keys1600 800 10 = Some 11%nat /\
   (forall k, keys1600 !! 22%nat = Some k ->
      (fadd (PromptDjMidi.key_x k) (PromptDjMidi.key_w k) < 1600)%Q) /\
   PromptDjMidi.hitTestPiano keys1600 1600 10 = None).
Proof.
  intros keys.
  split.
  { subst keys. unfold PromptDjMidi.computePianoKeys.
    rewrite length_imap. reflexivity. }
  split.
  { subst keys. unfold PromptDjMidi.computePianoKeys. apply imap_notes. }
  split.
  { intros i k Hk. apply (computePianoKeys_lookup width height i k Hk). }
  split.
  { unfold PromptDjMidi.hitTestPiano.
    pose proof (hitTestFrom_first 0 keys x y) as H.
    destruct (PromptDjMidi.hitTestFrom 0 keys x y) as [r|]; [|exact H].
    destruct H as (i & k & -> & Hk & Hin & Hfirst).
    exists k. split; [exact Hk|]. split; [exact Hin | exact Hfirst]. }
  split.
  { intros Hw Hout. unfold PromptDjMidi.hitTestPiano.
    apply hitTestFrom_none. intros i k Hk.
    apply computePianoKeys_lookup in Hk. destruct Hk as [_ ->].
    unfold PromptDjMidi.inKey.
    cbn [PromptDjMidi.key_x PromptDjMidi.key_y PromptDjMidi.key_w
         PromptDjMidi.key_h].
    destruct Hout as [Hx | Hy].
    - assert (Hk0 : (0 <= fmul (inject_Z (Z.of_nat i)) (fdiv width 23))%Q).
      { apply binary64_nonneg. apply Qmult_le_0_compat.
        - change 0%Q with (inject_Z 0). rewrite <- Zle_Qle. lia.
        - apply binary64_nonneg. apply Qle_shift_div_l; [reflexivity|].
          lra. }
      assert (E : Qle_bool (fmul (inject_Z (Z.of_nat i)) (fdiv width 23)) x
                  = false).
      { apply Qltb_false_le. lra. }
      rewrite E. reflexivity.
    - assert (E : Qle_bool 0 y = false) by (apply Qltb_false_le; lra).
      rewrite E. rewrite andb_false_r. reflexivity. }
  cbv zeta.
  split; [vm_compute; reflexivity|].
  split; [|vm_compute; reflexivity].
  intros k Hk. apply computePianoKeys_lookup in Hk. destruct Hk as [_ ->].
  vm_compute. reflexivity.
Qed.
